(** * A virtual CAN bus with a security pipeline and attack models

  Shallow embedding of [can_bus_simulation.py] and [can_bus_attacks.py].

  - Python [int] is [Z]; [bytes] is [list byte]; [str] is [string].
  - [time.time()] reads a clock oracle carried by the world; timestamps are
    exact rationals ([Q]), so float rounding is outside the model.
  - [heapq] is embedded as the array algorithm of the Python library
    (sift loops over a list indexed from 0).
  - AES and HMAC-SHA256 are parameters of the development; CBC chaining and
    PKCS#7 padding are written out. *)

From Equations Require Import Equations.
From Stdlib Require Import ZArith QArith Qabs Lia Lqa.
From Stdlib.Strings Require Import Byte String.
From stdpp Require Import base decidable option list sorting strings gmap.

Open Scope Z_scope.

(** ** The binary heap of Python's [heapq] *)

Section Heapq.
Context {A : Type} (lt : A -> A -> bool).

(** [parentpos = (pos - 1) >> 1] *)
Definition parent (pos : nat) : nat := ((pos - 1) / 2)%nat.

Lemma parent_lt pos : (0 < pos)%nat -> (parent pos < pos)%nat.
Proof.
  intros Hpos. unfold parent.
  apply Nat.Div0.div_lt_upper_bound. lia.
Qed.

(** The [while pos > startpos] loop of [heapq._siftdown]: the hole at [pos]
    moves towards the root while [newitem] is smaller than the parent. *)
Equations? siftdown_loop (heap : list A) (startpos pos : nat) (newitem : A)
  : list A by wf pos Nat.lt :=
  siftdown_loop heap startpos pos newitem with decide (startpos < pos)%nat => {
    | left _ with heap !! parent pos => {
        | Some par with lt newitem par => {
            | true := siftdown_loop (<[pos := par]> heap) startpos (parent pos) newitem
            | false := <[pos := newitem]> heap }
        | None := <[pos := newitem]> heap }
    | right _ := <[pos := newitem]> heap }.
Proof. apply parent_lt. lia. Qed.

Definition siftdown (heap : list A) (startpos pos : nat) : list A :=
  match heap !! pos with
  | Some newitem => siftdown_loop heap startpos pos newitem
  | None => heap
  end.

(** The child that [heapq._siftup] moves up: the right one when it exists
    and the left one is not smaller than it. *)
Definition smaller_child (heap : list A) (endpos pos : nat) : nat :=
  let childpos := (2 * pos + 1)%nat in
  let rightpos := (childpos + 1)%nat in
  if decide (rightpos < endpos)%nat then
    match heap !! childpos, heap !! rightpos with
    | Some c, Some r => if negb (lt c r) then rightpos else childpos
    | _, _ => childpos
    end
  else childpos.

Lemma smaller_child_cases heap endpos pos :
  smaller_child heap endpos pos = (2 * pos + 1)%nat \/
  (smaller_child heap endpos pos = (2 * pos + 2)%nat /\ (2 * pos + 2 < endpos)%nat).
Proof.
  unfold smaller_child. case_decide; [|by left].
  destruct (heap !! (2 * pos + 1)%nat), (heap !! (2 * pos + 1 + 1)%nat);
    try by left.
  destruct (negb _); [right; split; lia | by left].
Qed.

(** The [while childpos < endpos] loop of [heapq._siftup]: the hole goes
    down to a leaf, the smaller child moving up each time.  Returns the
    list and the final position of the hole. *)
Equations? siftup_loop (heap : list A) (endpos pos : nat)
  : list A * nat by wf (endpos - pos)%nat Nat.lt :=
  siftup_loop heap endpos pos with decide (2 * pos + 1 < endpos)%nat => {
    | left _ with heap !! smaller_child heap endpos pos => {
        | Some v := siftup_loop (<[pos := v]> heap) endpos (smaller_child heap endpos pos)
        | None := (heap, pos) }
    | right _ := (heap, pos) }.
Proof. destruct (smaller_child_cases heap endpos pos) as [->|[-> ?]]; lia. Qed.

Definition siftup (heap : list A) (pos : nat) : list A :=
  match heap !! pos with
  | Some newitem =>
      let '(heap', pos') := siftup_loop heap (length heap) pos in
      siftdown (<[pos' := newitem]> heap') pos pos'
  | None => heap
  end.

(** [heapq.heappush] *)
Definition heappush (heap : list A) (item : A) : list A :=
  let heap := heap ++ [item] in
  siftdown heap 0 (length heap - 1).

(** [heapq.heappop]; [None] is the [IndexError] of popping an empty list. *)
Definition heappop (heap : list A) : option (A * list A) :=
  match last heap with
  | None => None
  | Some lastelt =>
      let heap := take (length heap - 1) heap in
      match heap !! 0%nat with
      | Some returnitem => Some (returnitem, siftup (<[0%nat := lastelt]> heap) 0)
      | None => Some (lastelt, heap)
      end
  end.
End Heapq.

(** ** Frames and their order *)

#[global] Instance byte_eq_dec : EqDecision byte := Byte.byte_eq_dec.

(** The unsigned value of a byte. *)
Definition byte_val (b : byte) : N := Byte.to_N b.

Lemma byte_val_inj a b : byte_val a = byte_val b -> a = b.
Proof.
  unfold byte_val. intros E.
  pose proof (Byte.of_to_N a) as Ha. rewrite E, Byte.of_to_N in Ha. congruence.
Qed.

(** Python's [<] on [bytes]: the first differing byte decides, a proper
    prefix is smaller. *)
Fixpoint bytes_lt (a b : list byte) : bool :=
  match a, b with
  | _, [] => false
  | [], _ :: _ => true
  | x :: a', y :: b' =>
      if (byte_val x <? byte_val y)%N then true
      else if (byte_val y <? byte_val x)%N then false
      else bytes_lt a' b'
  end.

(** [@dataclass(order=True) class CANFrame]; only [arbitration_id] and
    [data] take part in comparisons ([compare=False] on the others). *)
Record CANFrame := mkCANFrame {
  arbitration_id : Z;
  data : list byte;
  send_time : Q;
  length_bits : Z;
  source : string;
  encrypted : bool;
  authenticated : bool
}.

(** [CANFrame(arbitration_id, data)] with the defaults of the other fields. *)
Definition new_frame (arb_id : Z) (payload : list byte) : CANFrame :=
  mkCANFrame arb_id payload 0%Q 128 "" false false.

(** The generated [__lt__]: the tuples [(arbitration_id, data)] are compared;
    a tuple comparison finds the first position whose items differ and
    compares those, and equal tuples are not [<]. *)
Definition frame_lt (a b : CANFrame) : bool :=
  if negb (arbitration_id a =? arbitration_id b)
  then arbitration_id a <? arbitration_id b
  else if negb (bool_decide (data a = data b))
       then bytes_lt (data a) (data b)
       else false.

(** Lexicographic order on byte strings, as a relation. *)
Inductive lex_lt : list byte -> list byte -> Prop :=
  | lex_prefix y b : lex_lt [] (y :: b)
  | lex_head x a y b : (byte_val x < byte_val y)%N -> lex_lt (x :: a) (y :: b)
  | lex_tail x a b : lex_lt a b -> lex_lt (x :: a) (x :: b).

(** ** The bus *)

Record VirtualCANBus := mkBus {
  bitrate : Z;
  tx_queue : list CANFrame;
  total_messages : Z;
  blocked_messages : Z;
  compromised : bool
}.

(** [VirtualCANBus.__init__]; the receivers are kept by the world. *)
Definition new_bus (rate : Z) : VirtualCANBus := mkBus rate [] 0 0 false.

Definition set_tx_queue (q : list CANFrame) (b : VirtualCANBus) : VirtualCANBus :=
  mkBus (bitrate b) q (total_messages b) (blocked_messages b) (compromised b).

Definition set_compromised (c : bool) (b : VirtualCANBus) : VirtualCANBus :=
  mkBus (bitrate b) (tx_queue b) (total_messages b) (blocked_messages b) c.

(** [VirtualCANBus.send]: [heapq.heappush(self.tx_queue, frame)] under the lock. *)
Definition bus_send (frame : CANFrame) (b : VirtualCANBus) : VirtualCANBus :=
  set_tx_queue (heappush frame_lt (tx_queue b) frame) b.

(** The locked region and the counter of one pass of [process_bus]: the
    frame popped, if any, and the bus after it. *)
Definition bus_take (b : VirtualCANBus) : option CANFrame * VirtualCANBus :=
  match tx_queue b with
  | [] => (None, b)
  | _ :: _ =>
      match heappop frame_lt (tx_queue b) with
      | Some (frame, q) =>
          (Some frame,
           mkBus (bitrate b) q (total_messages b + 1) (blocked_messages b) (compromised b))
      | None => (None, b)
      end
  end.

(** Interleavings of senders with the arbitration loop: the lock makes each
    [send] and each pop atomic, so a run is a sequence of them. *)
Inductive BusOp := OpSend (frame : CANFrame) | OpArbitrate.

Definition bus_step (b : VirtualCANBus) (op : BusOp) : VirtualCANBus :=
  match op with
  | OpSend frame => bus_send frame b
  | OpArbitrate => (bus_take b).2
  end.

Definition bus_run (ops : list BusOp) (b : VirtualCANBus) : VirtualCANBus :=
  foldl bus_step b ops.

(** The arbitration loop left alone with the queue: the frames in the order
    they are dequeued.  Each pass removes one frame, so [length] passes
    empty the queue. *)
Fixpoint bus_drain_passes (n : nat) (b : VirtualCANBus) : list CANFrame :=
  match n with
  | O => []
  | S n' =>
      match bus_take b with
      | (Some frame, b') => frame :: bus_drain_passes n' b'
      | (None, _) => []
      end
  end.

Definition bus_drain (b : VirtualCANBus) : list CANFrame :=
  bus_drain_passes (length (tx_queue b)) b.

(** ** Encryption and authentication primitives

    [Crypto.Cipher.AES] and [hmac]/[hashlib.sha256] are libraries: the block
    cipher and the keyed hash are parameters, together with the two module
    level keys.  CBC chaining and PKCS#7 padding ([Crypto.Util.Padding]) are
    written out. *)

Definition BLOCK_SIZE : nat := 16.

Class Crypto := {
  AES_KEY : list byte;
  HMAC_KEY : list byte;
  (** [aes_encrypt_block key block], [aes_decrypt_block key block] *)
  aes_encrypt_block : list byte -> list byte -> list byte;
  aes_decrypt_block : list byte -> list byte -> list byte;
  (** [hmac.new(key, msg, hashlib.sha256).digest()] *)
  hmac_sha256 : list byte -> list byte -> list byte
}.

Definition byte_xor (a b : byte) : byte :=
  let '(a0, (a1, (a2, (a3, (a4, (a5, (a6, a7))))))) := Byte.to_bits a in
  let '(b0, (b1, (b2, (b3, (b4, (b5, (b6, b7))))))) := Byte.to_bits b in
  Byte.of_bits (xorb a0 b0, (xorb a1 b1, (xorb a2 b2, (xorb a3 b3,
               (xorb a4 b4, (xorb a5 b5, (xorb a6 b6, xorb a7 b7))))))).

Definition xor_bytes (a b : list byte) : list byte := zip_with byte_xor a b.

(** [bchr(n)] *)
Definition bchr (n : nat) : byte := default x00 (Byte.of_nat n).

(** [Crypto.Util.Padding.pad(data_to_pad, block_size)], style pkcs7 *)
Definition pad (data_to_pad : list byte) (block_size : nat) : list byte :=
  let padding_len := (block_size - length data_to_pad mod block_size)%nat in
  data_to_pad ++ replicate padding_len (bchr padding_len).

(** [Crypto.Util.Padding.unpad(padded_data, block_size)]; [None] is its
    [ValueError]. *)
Definition unpad (padded_data : list byte) (block_size : nat) : option (list byte) :=
  let pdata_len := length padded_data in
  if decide (pdata_len = 0%nat) then None
  else if decide (pdata_len mod block_size <> 0)%nat then None
  else
    match last padded_data with
    | None => None
    | Some b =>
        let padding_len := Byte.to_nat b in
        if decide (padding_len < 1 \/ min block_size pdata_len < padding_len)%nat then None
        else if decide (drop (pdata_len - padding_len) padded_data
                        <> replicate padding_len (bchr padding_len)) then None
        else Some (take (pdata_len - padding_len) padded_data)
    end.

Section Cipher.
Context `{!Crypto}.

(** CBC encryption of a padded plaintext: each block is xored with the
    previous ciphertext block (the IV for the first) and encrypted. *)
Equations? cbc_encrypt (prev : list byte) (plaintext : list byte)
  : list byte by wf (length plaintext) Nat.lt :=
  cbc_encrypt prev [] := [];
  cbc_encrypt prev (b :: rest) :=
    let c := aes_encrypt_block AES_KEY (xor_bytes (take BLOCK_SIZE (b :: rest)) prev) in
    c ++ cbc_encrypt c (drop BLOCK_SIZE (b :: rest)).
Proof. rewrite length_drop. simpl. lia. Qed.

(** CBC decryption: each block is decrypted and xored with the previous
    ciphertext block. *)
Equations? cbc_decrypt (prev : list byte) (ciphertext : list byte)
  : list byte by wf (length ciphertext) Nat.lt :=
  cbc_decrypt prev [] := [];
  cbc_decrypt prev (b :: rest) :=
    let c := take BLOCK_SIZE (b :: rest) in
    xor_bytes (aes_decrypt_block AES_KEY c) prev
      ++ cbc_decrypt c (drop BLOCK_SIZE (b :: rest)).
Proof. rewrite length_drop. simpl. lia. Qed.

(** The bytes [SecurityManager.encrypt] returns for a given IV:
    [iv + AES.new(AES_KEY, MODE_CBC, iv).encrypt(pad(data, BLOCK_SIZE))]. *)
Definition aes_cbc_encrypt (iv data : list byte) : list byte :=
  iv ++ cbc_encrypt iv (pad data BLOCK_SIZE).

(** The [try] block of [SecurityManager.decrypt]; [None] is any exception:
    an IV that is not 16 bytes ([AES.new]), a ciphertext that is not a
    multiple of the block size ([cipher.decrypt]), bad padding ([unpad]). *)
Definition aes_cbc_decrypt (data : list byte) : option (list byte) :=
  let iv := take BLOCK_SIZE data in
  let ct := drop BLOCK_SIZE data in
  if decide (length iv <> BLOCK_SIZE) then None
  else if decide (length ct mod BLOCK_SIZE <> 0)%nat then None
  else unpad (cbc_decrypt iv ct) BLOCK_SIZE.

(** [data[:-32]] and [data[-32:]] of [verify_hmac] *)
Definition hmac_message (data : list byte) : list byte :=
  take (length data - 32) data.

Definition hmac_received (data : list byte) : list byte :=
  drop (length data - 32) data.

End Cipher.


(** A stand-in cipher for running the model: a block is reversed. *)
Definition toy_crypto : Crypto := {|
  AES_KEY := replicate 16 x2a;
  HMAC_KEY := replicate 32 x17;
  aes_encrypt_block := fun _ b => reverse b;
  aes_decrypt_block := fun _ b => reverse b;
  hmac_sha256 := fun key msg => take 32 (reverse msg ++ key)
|}.

(** ** Data model *)

#[global] Instance Qlt_dec (x y : Q) : Decision (x < y)%Q := Z_lt_dec _ _.

(** [SecurityManager.measures] *)
Record Measures := mkMeasures {
  encryption : bool;
  authentication : bool;
  rate_limiting : bool;
  ids : bool
}.

(** [SecurityManager.stats] *)
Record SecurityStats := mkSecurityStats {
  attacks_detected : Z;
  attacks_blocked : Z;
  attacks_successful : Z;
  messages_encrypted : Z;
  messages_authenticated : Z;
  rate_limit_violations : Z;
  anomalies_detected : Z
}.

(** An entry of [SecurityManager.message_baseline]:
    [{'count': ..., 'avg_interval': ...}] *)
Record Baseline := mkBaseline {
  baseline_count : Z;
  avg_interval : Q
}.

(** [SecurityManager.latency_overhead] *)
Record Overheads := mkOverheads {
  overhead_encryption : Q;
  overhead_authentication : Q;
  overhead_rate_limiting : Q;
  overhead_ids : Q
}.

Record SecurityManager := mkSecurityManager {
  measures : Measures;
  stats : SecurityStats;
  (** [defaultdict(lambda: deque(maxlen=100))] *)
  rate_windows : gmap Z (list Q);
  rate_limit_threshold : Z;
  message_baseline : gmap Z Baseline;
  learning_phase : bool;
  (** [defaultdict(list)] *)
  learning_samples : gmap Z (list Q);
  latency_overhead : Overheads;
  last_overhead_update : Q
}.

(** An entry of [CANController.attack_events]; ['rate'] is only present in
    rate-limit events. *)
Record AttackEvent := mkAttackEvent {
  event_time : Q;
  event_type : string;
  event_arb_id : Z;
  event_rate : option Z
}.

(** An entry of [CANController.log] *)
Record LogRecord := mkLogRecord {
  log_time : Q;
  log_arb_id : Z;
  log_latency : Q;
  log_security_overhead : Q;
  log_source : string
}.

(** [CANController]; its [bus] and [security] are the world's, and the unused
    [pending] dictionary is left out. *)
Record CANController := mkCANController {
  name : string;
  subscriptions : list Z;
  log : list LogRecord;
  health_status : string;
  attack_events : list AttackEvent;
  (** [deque(maxlen=1000)] *)
  latency_history : list Q;
  (** [deque(maxlen=1000)] *)
  security_overhead_history : list Q
}.

Record AttackStatistics := mkAttackStatistics {
  attack_type : string;
  attempts : Z;
  successful : Z;
  blocked : Z;
  detected : Z;
  target_ids : list Z
}.

(** An entry of [AttackManager.attack_log]; ['targets'] is only present in
    start events. *)
Record AttackLogEntry := mkAttackLogEntry {
  entry_time : Q;
  entry_attack : string;
  entry_action : string;
  entry_targets : option (list Z)
}.

(** [AttackManager]; [stats] is the dictionary with the three keys
    ['bus_flooding'], ['spoofing'] and ['replay'], and [attacks] holds the
    names registered. *)
Record AttackManager := mkAttackManager {
  attacks : gset string;
  active_attacks : gset string;
  compromised_nodes : gset string;
  stats_bus_flooding : AttackStatistics;
  stats_spoofing : AttackStatistics;
  stats_replay : AttackStatistics;
  attack_log : list AttackLogEntry
}.

(** The state shared by the threads: the security manager, the bus, the
    attack manager, the [running] flags of the three attack objects, and the
    two oracles behind [time.time()] and [get_random_bytes]. *)
Record World := mkWorld {
  security : SecurityManager;
  bus : VirtualCANBus;
  manager : AttackManager;
  flooding_running : bool;
  spoofing_running : bool;
  replay_running : bool;
  replay_count : Z;
  clock : nat -> Q;
  clock_reads : nat;
  rng : nat -> byte;
  rng_reads : nat
}.

(** ** Field updates *)

Definition set_measures (m : Measures) (s : SecurityManager) : SecurityManager :=
  mkSecurityManager m (stats s) (rate_windows s) (rate_limit_threshold s)
    (message_baseline s) (learning_phase s) (learning_samples s)
    (latency_overhead s) (last_overhead_update s).

Definition set_stats (st : SecurityStats) (s : SecurityManager) : SecurityManager :=
  mkSecurityManager (measures s) st (rate_windows s) (rate_limit_threshold s)
    (message_baseline s) (learning_phase s) (learning_samples s)
    (latency_overhead s) (last_overhead_update s).

Definition set_rate_windows (rw : gmap Z (list Q)) (s : SecurityManager) : SecurityManager :=
  mkSecurityManager (measures s) (stats s) rw (rate_limit_threshold s)
    (message_baseline s) (learning_phase s) (learning_samples s)
    (latency_overhead s) (last_overhead_update s).

Definition set_message_baseline (mb : gmap Z Baseline) (s : SecurityManager)
  : SecurityManager :=
  mkSecurityManager (measures s) (stats s) (rate_windows s) (rate_limit_threshold s)
    mb (learning_phase s) (learning_samples s)
    (latency_overhead s) (last_overhead_update s).

Definition set_learning_phase (b : bool) (s : SecurityManager) : SecurityManager :=
  mkSecurityManager (measures s) (stats s) (rate_windows s) (rate_limit_threshold s)
    (message_baseline s) b (learning_samples s)
    (latency_overhead s) (last_overhead_update s).

Definition set_learning_samples (ls : gmap Z (list Q)) (s : SecurityManager)
  : SecurityManager :=
  mkSecurityManager (measures s) (stats s) (rate_windows s) (rate_limit_threshold s)
    (message_baseline s) (learning_phase s) ls
    (latency_overhead s) (last_overhead_update s).

Definition set_latency_overhead (o : Overheads) (s : SecurityManager) : SecurityManager :=
  mkSecurityManager (measures s) (stats s) (rate_windows s) (rate_limit_threshold s)
    (message_baseline s) (learning_phase s) (learning_samples s)
    o (last_overhead_update s).

Definition set_security (s : SecurityManager) (w : World) : World :=
  mkWorld s (bus w) (manager w) (flooding_running w) (spoofing_running w)
    (replay_running w) (replay_count w) (clock w) (clock_reads w) (rng w) (rng_reads w).

Definition set_bus (b : VirtualCANBus) (w : World) : World :=
  mkWorld (security w) b (manager w) (flooding_running w) (spoofing_running w)
    (replay_running w) (replay_count w) (clock w) (clock_reads w) (rng w) (rng_reads w).

Definition set_manager (m : AttackManager) (w : World) : World :=
  mkWorld (security w) (bus w) m (flooding_running w) (spoofing_running w)
    (replay_running w) (replay_count w) (clock w) (clock_reads w) (rng w) (rng_reads w).

Definition set_flooding_running (r : bool) (w : World) : World :=
  mkWorld (security w) (bus w) (manager w) r (spoofing_running w)
    (replay_running w) (replay_count w) (clock w) (clock_reads w) (rng w) (rng_reads w).

Definition set_spoofing_running (r : bool) (w : World) : World :=
  mkWorld (security w) (bus w) (manager w) (flooding_running w) r
    (replay_running w) (replay_count w) (clock w) (clock_reads w) (rng w) (rng_reads w).

Definition set_replay_running (r : bool) (w : World) : World :=
  mkWorld (security w) (bus w) (manager w) (flooding_running w) (spoofing_running w)
    r (replay_count w) (clock w) (clock_reads w) (rng w) (rng_reads w).

Definition set_replay_count (n : Z) (w : World) : World :=
  mkWorld (security w) (bus w) (manager w) (flooding_running w) (spoofing_running w)
    (replay_running w) n (clock w) (clock_reads w) (rng w) (rng_reads w).

(** ** The state monad of the simulation *)

Definition M (A : Type) : Type := World -> A * World.

Definition ret {A} (a : A) : M A := fun w => (a, w).

Definition bind {A B} (m : M A) (f : A -> M B) : M B :=
  fun w => let '(a, w') := m w in f a w'.

Notation "'let*' x ':=' m 'in' k" := (bind m (fun x => k))
  (at level 10, x pattern, m at level 100, k at level 200).

Definition get_world : M World := fun w => (w, w).

Definition modify (f : World -> World) : M unit := fun w => (tt, f w).

Definition get_security : M SecurityManager := fun w => (security w, w).

Definition modify_security (f : SecurityManager -> SecurityManager) : M unit :=
  modify (fun w => set_security (f (security w)) w).

Definition modify_manager (f : AttackManager -> AttackManager) : M unit :=
  modify (fun w => set_manager (f (manager w)) w).

(** [time.time()]: the next reading of the clock. *)
Definition time_time : M Q :=
  fun w =>
    (clock w (clock_reads w),
     mkWorld (security w) (bus w) (manager w) (flooding_running w) (spoofing_running w)
       (replay_running w) (replay_count w) (clock w) (S (clock_reads w))
       (rng w) (rng_reads w)).

(** [Crypto.Random.get_random_bytes(n)]: the next [n] bytes of the source. *)
Definition get_random_bytes (n : nat) : M (list byte) :=
  fun w =>
    (rng w <$> seq (rng_reads w) n,
     mkWorld (security w) (bus w) (manager w) (flooding_running w) (spoofing_running w)
       (replay_running w) (replay_count w) (clock w) (clock_reads w)
       (rng w) (rng_reads w + n)).

(** [deque(maxlen=maxlen).append(x)]: a full deque drops its oldest item. *)
Definition deque_append {A} (maxlen : nat) (d : list A) (x : A) : list A :=
  if decide (maxlen <= length d)%nat
  then drop (S (length d) - maxlen) (d ++ [x])
  else d ++ [x].

(** [sum(l)] on floats *)
Definition Qsum (l : list Q) : Q := foldl Qplus 0%Q l.

(** [[l[i] - l[i-1] for i in range(1, len(l))]] *)
Definition intervals (l : list Q) : list Q :=
  zip_with (fun prev cur => (cur - prev)%Q) l (tail l).

(** [len(l)] as a float *)
Definition Qlen (l : list Q) : Q := inject_Z (Z.of_nat (length l)).

(** ** [SecurityManager] *)

(** [SecurityManager.__init__], given the reading of [time.time()]. *)
Definition new_security_manager (now : Q) : SecurityManager :=
  mkSecurityManager
    (mkMeasures false false false false)
    (mkSecurityStats 0 0 0 0 0 0 0)
    ∅ 20 ∅ true ∅
    (mkOverheads 0 0 0 0)
    now.

(** [toggle_measure] *)
Definition toggle_measure (measure : string) (enabled : bool) : M bool :=
  let* s := get_security in
  let m := measures s in
  if decide (measure = "encryption") then
    let* _ := modify_security (set_measures
      (mkMeasures enabled (authentication m) (rate_limiting m) (ids m))) in ret true
  else if decide (measure = "authentication") then
    let* _ := modify_security (set_measures
      (mkMeasures (encryption m) enabled (rate_limiting m) (ids m))) in ret true
  else if decide (measure = "rate_limiting") then
    let* _ := modify_security (set_measures
      (mkMeasures (encryption m) (authentication m) enabled (ids m))) in ret true
  else if decide (measure = "ids") then
    let* _ := modify_security (set_measures
      (mkMeasures (encryption m) (authentication m) (rate_limiting m) enabled)) in ret true
  else ret false.

(** [self.stats[...] += 1] *)
Definition count_encrypted (st : SecurityStats) : SecurityStats :=
  mkSecurityStats (attacks_detected st) (attacks_blocked st) (attacks_successful st)
    (messages_encrypted st + 1) (messages_authenticated st)
    (rate_limit_violations st) (anomalies_detected st).

Definition count_authenticated (st : SecurityStats) : SecurityStats :=
  mkSecurityStats (attacks_detected st) (attacks_blocked st) (attacks_successful st)
    (messages_encrypted st) (messages_authenticated st + 1)
    (rate_limit_violations st) (anomalies_detected st).

Definition count_rate_limit_violation (st : SecurityStats) : SecurityStats :=
  mkSecurityStats (attacks_detected st) (attacks_blocked st) (attacks_successful st)
    (messages_encrypted st) (messages_authenticated st)
    (rate_limit_violations st + 1) (anomalies_detected st).

Definition count_anomaly (st : SecurityStats) : SecurityStats :=
  mkSecurityStats (attacks_detected st) (attacks_blocked st) (attacks_successful st)
    (messages_encrypted st) (messages_authenticated st)
    (rate_limit_violations st) (anomalies_detected st + 1).

(** [self.latency_overhead[...] = overhead] *)
Definition record_overhead (measure : string) (overhead : Q) : M unit :=
  modify_security (fun s =>
    let o := latency_overhead s in
    set_latency_overhead
      (if decide (measure = "encryption") then
         mkOverheads overhead (overhead_authentication o) (overhead_rate_limiting o)
           (overhead_ids o)
       else if decide (measure = "authentication") then
         mkOverheads (overhead_encryption o) overhead (overhead_rate_limiting o)
           (overhead_ids o)
       else if decide (measure = "rate_limiting") then
         mkOverheads (overhead_encryption o) (overhead_authentication o) overhead
           (overhead_ids o)
       else
         mkOverheads (overhead_encryption o) (overhead_authentication o)
           (overhead_rate_limiting o) overhead) s).

(** [self.rate_windows[arb_id]]: reading a missing key of the [defaultdict]
    stores an empty deque under it. *)
Definition rate_window (arb_id : Z) : M (list Q) :=
  let* s := get_security in
  match rate_windows s !! arb_id with
  | Some d => ret d
  | None =>
      let* _ := modify_security (set_rate_windows (<[arb_id := []]> (rate_windows s))) in
      ret []
  end.

(** [self.learning_samples[arb_id]], a [defaultdict(list)] *)
Definition learning_window (arb_id : Z) : M (list Q) :=
  let* s := get_security in
  match learning_samples s !! arb_id with
  | Some l => ret l
  | None =>
      let* _ := modify_security
        (set_learning_samples (<[arb_id := []]> (learning_samples s))) in
      ret []
  end.

Section SecurityOps.
Context `{!Crypto}.

(** [encrypt] *)
Definition encrypt (payload : list byte) : M (list byte * Q) :=
  let* start := time_time in
  let* iv := get_random_bytes BLOCK_SIZE in
  let out := aes_cbc_encrypt iv payload in
  let* t := time_time in
  let overhead := (t - start)%Q in
  let* _ := record_overhead "encryption" (overhead * 2)%Q in
  let* _ := modify_security (fun s => set_stats (count_encrypted (stats s)) s) in
  ret (out, overhead).

(** [decrypt]: [(plaintext, overhead, valid)] *)
Definition decrypt (payload : list byte) : M (option (list byte) * Q * bool) :=
  let* start := time_time in
  match aes_cbc_decrypt payload with
  | Some plaintext =>
      let* t := time_time in
      ret (Some plaintext, (t - start)%Q, true)
  | None =>
      let* t := time_time in
      ret (None, (t - start)%Q, false)
  end.

(** [add_hmac] *)
Definition add_hmac (payload : list byte) : M (list byte * Q) :=
  let* start := time_time in
  let mac := hmac_sha256 HMAC_KEY payload in
  let* t := time_time in
  let overhead := (t - start)%Q in
  let* _ := record_overhead "authentication" (overhead * 2)%Q in
  let* _ := modify_security (fun s => set_stats (count_authenticated (stats s)) s) in
  ret (payload ++ mac, overhead).

(** [verify_hmac]: [(message, overhead, valid)]; slicing and hashing raise
    nothing, so the [except] branch is never taken. *)
Definition verify_hmac (payload : list byte) : M (list byte * Q * bool) :=
  let* start := time_time in
  let message := hmac_message payload in
  let received_mac := hmac_received payload in
  let expected_mac := hmac_sha256 HMAC_KEY message in
  let valid := bool_decide (received_mac = expected_mac) in
  let* t := time_time in
  ret (message, (t - start)%Q, valid).

End SecurityOps.

(** [check_rate_limit]: [(allowed, overhead, recent)] *)
Definition check_rate_limit (arb_id : Z) : M (bool * Q * Z) :=
  let* start := time_time in
  let* now := time_time in
  (* self.rate_windows[arb_id].append(now) *)
  let* d := rate_window arb_id in
  let* _ := modify_security (fun s =>
    set_rate_windows (<[arb_id := deque_append 100 d now]> (rate_windows s)) s) in
  (* recent = sum(1 for t in self.rate_windows[arb_id] if now - t < 1.0) *)
  let* d := rate_window arb_id in
  let recent := Z.of_nat (length (filter (fun t => (now - t < 1)%Q) d)) in
  let* t := time_time in
  let overhead := (t - start)%Q in
  let* _ := record_overhead "rate_limiting" overhead in
  let* s := get_security in
  if decide (rate_limit_threshold s < recent) then
    let* _ := modify_security (fun s =>
      set_stats (count_rate_limit_violation (stats s)) s) in
    ret (false, overhead, recent)
  else ret (true, overhead, recent).

(** [check_anomaly]: [(allowed, overhead, metric)] *)
Definition check_anomaly (arb_id : Z) : M (bool * Q * Q) :=
  let* start := time_time in
  let* now := time_time in
  let* s := get_security in
  if learning_phase s then
    (* self.learning_samples[arb_id].append(now) *)
    let* l := learning_window arb_id in
    let* _ := modify_security (fun s =>
      set_learning_samples (<[arb_id := l ++ [now]]> (learning_samples s)) s) in
    let* samples := learning_window arb_id in
    let* _ :=
      if decide (20 <= length samples)%nat then
        let ivs := intervals samples in
        modify_security (fun s =>
          set_message_baseline
            (<[arb_id := mkBaseline (Z.of_nat (length samples))
                           (match ivs with
                            | [] => 0
                            | _ :: _ => Qsum ivs / Qlen ivs
                            end)%Q]> (message_baseline s)) s)
      else ret tt in
    let* t := time_time in
    let overhead := (t - start)%Q in
    let* _ := record_overhead "ids" overhead in
    ret (true, overhead, 0%Q)
  else
    (* baseline = self.message_baseline.get(arb_id) *)
    match message_baseline s !! arb_id with
    | None =>
        let* t := time_time in
        ret (true, (t - start)%Q, 0%Q)
    | Some baseline =>
        if Qeq_bool (avg_interval baseline) 0 then
          let* t := time_time in
          ret (true, (t - start)%Q, 0%Q)
        else
          let* d := rate_window arb_id in
          let recent_times := filter (fun t => (now - t < 1)%Q) d in
          let anomalous :=
            if decide (2 < length recent_times)%nat then
              let recent_intervals := intervals recent_times in
              let avg_recent := (Qsum recent_intervals / Qlen recent_intervals)%Q in
              if decide (avg_recent < avg_interval baseline / 3)%Q
              then Some avg_recent else None
            else None in
          match anomalous with
          | Some avg_recent =>
              let* _ := modify_security (fun s =>
                set_stats (count_anomaly (stats s)) s) in
              let* t := time_time in
              ret (false, (t - start)%Q, avg_recent)
          | None =>
              let* t := time_time in
              let overhead := (t - start)%Q in
              let* _ := record_overhead "ids" overhead in
              ret (true, overhead, 0%Q)
          end
    end.

(** [finish_learning] *)
Definition finish_learning : M unit :=
  modify_security (set_learning_phase false).

(** ** [CANController] *)

Definition LATENCY_CRITICAL : Q := 10.
Definition LATENCY_SAFETY : Q := 20.
Definition LATENCY_NORMAL : Q := 100.
Definition CRITICAL_IDS : list Z := [0x0A0; 0x0A1].
Definition SAFETY_IDS : list Z := [0x0C0; 0x0C1].

(** [CANController.__init__] *)
Definition new_controller (ecu_name : string) : CANController :=
  mkCANController ecu_name [] [] "healthy" [] [] [].

(** [subscribe] *)
Definition subscribe (arb_ids : list Z) (self : CANController) : CANController :=
  mkCANController (name self) (subscriptions self ++ arb_ids) (log self)
    (health_status self) (attack_events self) (latency_history self)
    (security_overhead_history self).

(** [self.attack_events.append(e)] *)
Definition add_attack_event (e : AttackEvent) (self : CANController) : CANController :=
  mkCANController (name self) (subscriptions self) (log self)
    (health_status self) (attack_events self ++ [e]) (latency_history self)
    (security_overhead_history self).

Definition set_health_status (h : string) (self : CANController) : CANController :=
  mkCANController (name self) (subscriptions self) (log self)
    h (attack_events self) (latency_history self)
    (security_overhead_history self).

(** [self.latency_history.append(x)] *)
Definition add_latency (x : Q) (self : CANController) : CANController :=
  mkCANController (name self) (subscriptions self) (log self)
    (health_status self) (attack_events self)
    (deque_append 1000 (latency_history self) x)
    (security_overhead_history self).

(** [self.security_overhead_history.append(x)] *)
Definition add_security_overhead (x : Q) (self : CANController) : CANController :=
  mkCANController (name self) (subscriptions self) (log self)
    (health_status self) (attack_events self) (latency_history self)
    (deque_append 1000 (security_overhead_history self) x).

(** [self.log.append(r)] *)
Definition add_log (r : LogRecord) (self : CANController) : CANController :=
  mkCANController (name self) (subscriptions self) (log self ++ [r])
    (health_status self) (attack_events self) (latency_history self)
    (security_overhead_history self).

(** Assignments to the fields of a frame. *)
Definition stamp (t : Q) (src : string) (f : CANFrame) : CANFrame :=
  mkCANFrame (arbitration_id f) (data f) t (length_bits f) src
    (encrypted f) (authenticated f).

Definition set_encrypted_data (d : list byte) (f : CANFrame) : CANFrame :=
  mkCANFrame (arbitration_id f) d (send_time f) (length_bits f) (source f)
    true (authenticated f).

Definition set_authenticated_data (d : list byte) (f : CANFrame) : CANFrame :=
  mkCANFrame (arbitration_id f) d (send_time f) (length_bits f) (source f)
    (encrypted f) true.

Section ControllerOps.
Context `{!Crypto}.

(** The first half of [CANController.send]: the frame is stamped, then
    encrypted and authenticated when those measures are enabled.  Returns the
    frame and [total_overhead] so far. *)
Definition send_secure (self : CANController) (frame : CANFrame) : M (CANFrame * Q) :=
  let* t := time_time in
  let frame := stamp t (name self) frame in
  let total_overhead := 0%Q in
  let* s := get_security in
  let* (frame, total_overhead) :=
    (if encryption (measures s) then
       let* (d, overhead) := encrypt (data frame) in
       ret (set_encrypted_data d frame, (total_overhead + overhead)%Q)
     else ret (frame, total_overhead)) in
  let* s := get_security in
  if authentication (measures s) then
    let* (d, overhead) := add_hmac (data frame) in
    ret (set_authenticated_data d frame, (total_overhead + overhead)%Q)
  else ret (frame, total_overhead).

(** [CANController.send]; the controller is passed in and returned.  The
    early [return] of a blocked message is the [else] branch of [allowed]. *)
Definition send (self : CANController) (frame : CANFrame) : M CANController :=
  let* (frame, total_overhead) := send_secure self frame in
  let* s := get_security in
  let* (allowed, total_overhead, rate) :=
    (if rate_limiting (measures s) then
       let* (allowed, overhead, rate) := check_rate_limit (arbitration_id frame) in
       ret (allowed, (total_overhead + overhead)%Q, rate)
     else ret (true, total_overhead, 0)) in
  if allowed then
    let* s := get_security in
    let* (self, total_overhead) :=
      (if ids (measures s) then
         let* (allowed, overhead, metric) := check_anomaly (arbitration_id frame) in
         let total_overhead := (total_overhead + overhead)%Q in
         if allowed then ret (self, total_overhead)
         else
           let* now := time_time in
           ret (add_attack_event
                  (mkAttackEvent now "anomaly_detected" (arbitration_id frame) None)
                  self, total_overhead)
       else ret (self, total_overhead)) in
    let self := add_security_overhead (total_overhead * 1000)%Q self in
    let* _ := modify (fun w => set_bus (bus_send frame (bus w)) w) in
    ret self
  else
    let* now := time_time in
    ret (add_attack_event
           (mkAttackEvent now "rate_limit_violation" (arbitration_id frame) (Some rate))
           self).

(** [CANController.receive] *)
Definition receive (self : CANController) (frame : CANFrame) : M CANController :=
  let* now := time_time in
  let arb_id := arbitration_id frame in
  let total_overhead := 0%Q in
  let payload := data frame in
  let* s := get_security in
  let* (payload, total_overhead, valid) :=
    (if authentication (measures s) && authenticated frame then
       let* (message, overhead, valid) := verify_hmac payload in
       ret (message, (total_overhead + overhead)%Q, valid)
     else ret (payload, total_overhead, true)) in
  if negb valid then
    ret (set_health_status "warning"
           (add_attack_event (mkAttackEvent now "authentication_failed" arb_id None) self))
  else
    let* s := get_security in
    let* (total_overhead, valid) :=
      (if encryption (measures s) && encrypted frame then
         let* (plaintext, overhead, valid) := decrypt payload in
         ret ((total_overhead + overhead)%Q, valid)
       else ret (total_overhead, true)) in
    if negb valid then
      ret (set_health_status "warning"
             (add_attack_event (mkAttackEvent now "decryption_failed" arb_id None) self))
    else if bool_decide (arb_id ∈ subscriptions self) then
      let latency := ((now - send_time frame) * 1000)%Q in
      let self := add_latency latency self in
      let self :=
        if bool_decide (arb_id ∈ CRITICAL_IDS) && bool_decide (LATENCY_CRITICAL < latency)%Q
        then set_health_status "warning" self
        else if bool_decide (arb_id ∈ SAFETY_IDS) && bool_decide (LATENCY_SAFETY < latency)%Q
        then set_health_status "warning" self
        else self in
      ret (add_log (mkLogRecord now arb_id latency (total_overhead * 1000)%Q (source frame))
             self)
    else ret self.

(** The broadcast of [process_bus]: [for node in self.receivers:
    node.receive(frame)]. *)
Fixpoint broadcast (frame : CANFrame) (receivers : list CANController)
  : M (list CANController) :=
  match receivers with
  | [] => ret []
  | node :: rest =>
      let* node' := receive node frame in
      let* rest' := broadcast frame rest in
      ret (node' :: rest')
  end.

(** One pass of the [while True] loop of [process_bus]; the two sleeps only
    let time pass. *)
Definition process_bus_pass (receivers : list CANController) : M (list CANController) :=
  let* w := get_world in
  match bus_take (bus w) with
  | (Some frame, b) =>
      let* _ := modify (set_bus b) in
      broadcast frame receivers
  | (None, _) => ret receivers
  end.

End ControllerOps.

(** [CANSimulation.__init__]: the world and the four controllers in the order
    they register with the bus.  The security manager reads the clock once. *)
Definition new_attack_manager : AttackManager :=
  mkAttackManager
    {[ "bus_flooding"; "spoofing"; "replay" ]} ∅ ∅
    (mkAttackStatistics "bus_flooding" 0 0 0 0 [])
    (mkAttackStatistics "spoofing" 0 0 0 0 [0x0A0; 0x300; 0x301])
    (mkAttackStatistics "replay" 0 0 0 0 [0x100; 0x200])
    [].

Definition initial_world (clk : nat -> Q) (rnd : nat -> byte) : World :=
  mkWorld (new_security_manager (clk 0%nat)) (new_bus 500000) new_attack_manager
    false false false 0 clk 1 rnd 0.

Definition initial_controllers : list CANController :=
  [ subscribe [0x0A0; 0x300] (new_controller "EngineECU");
    subscribe [0x100] (new_controller "BrakeECU");
    subscribe [0x100; 0x0A0] (new_controller "TransmissionECU");
    subscribe [0x100; 0x200] (new_controller "BodyECU") ].

(** Calls of the methods of the one [SecurityManager], in the order the
    threads make them. *)
Inductive SecurityOp :=
  | OpToggleMeasure (measure : string) (enabled : bool)
  | OpEncrypt (payload : list byte)
  | OpDecrypt (payload : list byte)
  | OpAddHmac (payload : list byte)
  | OpVerifyHmac (payload : list byte)
  | OpCheckRateLimit (arb_id : Z)
  | OpCheckAnomaly (arb_id : Z)
  | OpFinishLearning.

Definition security_step `{!Crypto} (w : World) (op : SecurityOp) : World :=
  match op with
  | OpToggleMeasure measure enabled => (toggle_measure measure enabled w).2
  | OpEncrypt payload => (encrypt payload w).2
  | OpDecrypt payload => (decrypt payload w).2
  | OpAddHmac payload => (add_hmac payload w).2
  | OpVerifyHmac payload => (verify_hmac payload w).2
  | OpCheckRateLimit arb_id => (check_rate_limit arb_id w).2
  | OpCheckAnomaly arb_id => (check_anomaly arb_id w).2
  | OpFinishLearning => (finish_learning w).2
  end.

Definition security_run `{!Crypto} (ops : list SecurityOp) (w : World) : World :=
  foldl security_step w ops.

(** ** Attack statistics and the attack manager *)

(** [AttackStatistics.success_rate] *)
Definition success_rate (st : AttackStatistics) : Q :=
  if decide (attempts st = 0) then 0
  else (inject_Z (successful st) / inject_Z (attempts st) * 100)%Q.

(** [AttackStatistics.detection_rate] *)
Definition detection_rate (st : AttackStatistics) : Q :=
  if decide (attempts st = 0) then 0
  else (inject_Z (detected st) / inject_Z (attempts st) * 100)%Q.

(** [.attempts += 1], [.successful += 1], [.blocked += 1], [.detected += 1] *)
Definition count_attempt (st : AttackStatistics) : AttackStatistics :=
  mkAttackStatistics (attack_type st) (attempts st + 1) (successful st) (blocked st)
    (detected st) (target_ids st).

Definition count_successful (st : AttackStatistics) : AttackStatistics :=
  mkAttackStatistics (attack_type st) (attempts st) (successful st + 1) (blocked st)
    (detected st) (target_ids st).

Definition count_blocked (st : AttackStatistics) : AttackStatistics :=
  mkAttackStatistics (attack_type st) (attempts st) (successful st) (blocked st + 1)
    (detected st) (target_ids st).

Definition count_detected (st : AttackStatistics) : AttackStatistics :=
  mkAttackStatistics (attack_type st) (attempts st) (successful st) (blocked st)
    (detected st + 1) (target_ids st).

Definition set_stats_bus_flooding (st : AttackStatistics) (m : AttackManager)
  : AttackManager :=
  mkAttackManager (attacks m) (active_attacks m) (compromised_nodes m)
    st (stats_spoofing m) (stats_replay m) (attack_log m).

Definition set_stats_spoofing (st : AttackStatistics) (m : AttackManager)
  : AttackManager :=
  mkAttackManager (attacks m) (active_attacks m) (compromised_nodes m)
    (stats_bus_flooding m) st (stats_replay m) (attack_log m).

Definition set_stats_replay (st : AttackStatistics) (m : AttackManager)
  : AttackManager :=
  mkAttackManager (attacks m) (active_attacks m) (compromised_nodes m)
    (stats_bus_flooding m) (stats_spoofing m) st (attack_log m).

Definition set_active_attacks (a : gset string) (m : AttackManager) : AttackManager :=
  mkAttackManager (attacks m) a (compromised_nodes m)
    (stats_bus_flooding m) (stats_spoofing m) (stats_replay m) (attack_log m).

Definition set_compromised_nodes (c : gset string) (m : AttackManager) : AttackManager :=
  mkAttackManager (attacks m) (active_attacks m) c
    (stats_bus_flooding m) (stats_spoofing m) (stats_replay m) (attack_log m).

Definition add_attack_log (e : AttackLogEntry) (m : AttackManager) : AttackManager :=
  mkAttackManager (attacks m) (active_attacks m) (compromised_nodes m)
    (stats_bus_flooding m) (stats_spoofing m) (stats_replay m) (attack_log m ++ [e]).

(** [self.compromised_nodes.add(n)] and [.discard(n)] *)
Definition compromise (n : string) : M unit :=
  modify_manager (fun m => set_compromised_nodes ({[ n ]} ∪ compromised_nodes m) m).

Definition uncompromise (n : string) : M unit :=
  modify_manager (fun m => set_compromised_nodes (compromised_nodes m ∖ {[ n ]}) m).

(** [self.stats[attack_name]] for a registered attack *)
Definition stats_of (attack_name : string) (m : AttackManager) : AttackStatistics :=
  if decide (attack_name = "bus_flooding") then stats_bus_flooding m
  else if decide (attack_name = "spoofing") then stats_spoofing m
  else stats_replay m.

(** The [target_node] attribute of the attack registered under a name. *)
Definition target_node (attack_name : string) : string :=
  if decide (attack_name = "bus_flooding") then "BUS_FLOODER"
  else if decide (attack_name = "spoofing") then "BodyECU"
  else "EngineECU".

(** ** The three attacks *)

(** One pass of the [while] loop of [BusFloodingAttack.execute]. *)
Definition flooding_attempt : M unit :=
  let frame := mkCANFrame 0x000 (replicate 8 xff) 0 128 "ATTACKER" false false in
  let* _ := modify_manager (fun m =>
    set_stats_bus_flooding (count_attempt (stats_bus_flooding m)) m) in
  let* s := get_security in
  let* blocked :=
    (if rate_limiting (measures s) then
       let* (allowed, _, rate) := check_rate_limit 0x000 in
       if allowed then ret false
       else
         let* _ := modify_manager (fun m =>
           set_stats_bus_flooding (count_blocked (stats_bus_flooding m)) m) in
         let* _ := modify_manager (fun m =>
           set_stats_bus_flooding (count_detected (stats_bus_flooding m)) m) in
         ret true
     else ret false) in
  let* s := get_security in
  let* _ :=
    (if ids (measures s) && negb blocked then
       let* (allowed, _, _) := check_anomaly 0x000 in
       if allowed then ret tt
       else modify_manager (fun m =>
         set_stats_bus_flooding (count_detected (stats_bus_flooding m)) m)
     else ret tt) in
  if negb blocked then
    let* _ := modify (fun w => set_bus (bus_send frame (bus w)) w) in
    let* _ := modify_manager (fun m =>
      set_stats_bus_flooding (count_successful (stats_bus_flooding m)) m) in
    modify (fun w => set_bus (set_compromised true (bus w)) w)
  else ret tt.

(** [SpoofingAttack.targets], in insertion order *)
Definition spoofing_targets : list (Z * list byte) :=
  [ (0x0A0, [x00]); (0x300, [x00]); (0x301, [x00]) ].

(** The body of the [for] loop of [SpoofingAttack.execute]. *)
Definition spoofing_attempt (target : Z * list byte) : M unit :=
  let '(arb_id, malicious_data) := target in
  let frame := mkCANFrame arb_id malicious_data 0 128 "ATTACKER" false false in
  let* _ := modify_manager (fun m =>
    set_stats_spoofing (count_attempt (stats_spoofing m)) m) in
  let blocked := false in
  let* s := get_security in
  let* blocked :=
    (if authentication (measures s) then
       let* _ := modify_manager (fun m =>
         set_stats_spoofing (count_blocked (stats_spoofing m)) m) in
       let* _ := modify_manager (fun m =>
         set_stats_spoofing (count_detected (stats_spoofing m)) m) in
       ret true
     else ret blocked) in
  let* s := get_security in
  let* blocked :=
    (if encryption (measures s) && negb blocked then
       let* _ := modify_manager (fun m =>
         set_stats_spoofing (count_detected (stats_spoofing m)) m) in
       ret true
     else ret blocked) in
  if negb blocked then
    let* _ := modify (fun w => set_bus (bus_send frame (bus w)) w) in
    let* _ := modify_manager (fun m =>
      set_stats_spoofing (count_successful (stats_spoofing m)) m) in
    if decide (arb_id = 0x0A0) then compromise "BrakeECU"
    else if bool_decide (arb_id ∈ [0x300; 0x301]) then compromise "BodyECU"
    else ret tt
  else ret tt.

(** [for x in l: body(x)] *)
Fixpoint for_each {A} (l : list A) (body : A -> M unit) : M unit :=
  match l with
  | [] => ret tt
  | x :: rest => let* _ := body x in for_each rest body
  end.

(** [ReplayAttack.captured], in insertion order *)
Definition replay_captured : list (Z * list byte) :=
  [ (0x100, [x0b; xb8]); (0x200, [x03]) ].

(** The body of [for _ in range(3)] of [ReplayAttack.execute]. *)
Definition replay_attempt (target : Z * list byte) : M unit :=
  let '(arb_id, captured_data) := target in
  let* _ := modify_manager (fun m =>
    set_stats_replay (count_attempt (stats_replay m)) m) in
  let* s := get_security in
  let* blocked :=
    (if rate_limiting (measures s) then
       let* (allowed, _, rate) := check_rate_limit arb_id in
       if allowed then ret false
       else
         let* _ := modify_manager (fun m =>
           set_stats_replay (count_blocked (stats_replay m)) m) in
         let* _ := modify_manager (fun m =>
           set_stats_replay (count_detected (stats_replay m)) m) in
         ret true
     else ret false) in
  let* s := get_security in
  let* _ :=
    (if ids (measures s) && negb blocked then
       let* (allowed, _, _) := check_anomaly arb_id in
       if allowed then ret tt
       else modify_manager (fun m =>
         set_stats_replay (count_detected (stats_replay m)) m)
     else ret tt) in
  let* s := get_security in
  let* _ :=
    (if authentication (measures s) && negb blocked then
       modify_manager (fun m => set_stats_replay (count_detected (stats_replay m)) m)
     else ret tt) in
  if negb blocked then
    let frame := mkCANFrame arb_id captured_data 0 128 "ATTACKER" false false in
    let* _ := modify (fun w => set_bus (bus_send frame (bus w)) w) in
    let* _ := modify_manager (fun m =>
      set_stats_replay (count_successful (stats_replay m)) m) in
    compromise "EngineECU"
  else ret tt.

(** One pass of the [while] loop of [ReplayAttack.execute]: each captured
    message is replayed three times. *)
Definition replay_pass : M unit :=
  let* _ := for_each replay_captured (fun target =>
    for_each [0; 1; 2] (fun _ => replay_attempt target)) in
  modify (fun w => set_replay_count (replay_count w + 1) w).

(** [while self.running and name in self.manager.active_attacks: body];
    another thread may end the loop at any pass, and [passes] bounds how many
    are run. *)
Fixpoint attack_loop (running : World -> bool) (attack_name : string)
    (body : M unit) (passes : nat) : M unit :=
  match passes with
  | O => ret tt
  | S n =>
      let* w := get_world in
      if running w && bool_decide (attack_name ∈ active_attacks (manager w)) then
        let* _ := body in
        attack_loop running attack_name body n
      else ret tt
  end.

(** [BusFloodingAttack.execute] *)
Definition flooding_execute (passes : nat) : M unit :=
  let* _ := modify (set_flooding_running true) in
  let* _ := modify (fun w => set_bus (set_compromised true (bus w)) w) in
  attack_loop flooding_running "bus_flooding" flooding_attempt passes.

(** [SpoofingAttack.execute] *)
Definition spoofing_execute (passes : nat) : M unit :=
  let* _ := modify (set_spoofing_running true) in
  attack_loop spoofing_running "spoofing"
    (for_each spoofing_targets spoofing_attempt) passes.

(** [ReplayAttack.execute] *)
Definition replay_execute (passes : nat) : M unit :=
  let* _ := modify (set_replay_running true) in
  attack_loop replay_running "replay" replay_pass passes.

(** The [stop] method of the attack registered under a name. *)
Definition attack_stop (attack_name : string) : M unit :=
  if decide (attack_name = "bus_flooding") then
    let* _ := modify (set_flooding_running false) in
    modify (fun w => set_bus (set_compromised false (bus w)) w)
  else if decide (attack_name = "spoofing") then
    let* _ := modify (set_spoofing_running false) in
    let* _ := uncompromise "BrakeECU" in
    uncompromise "BodyECU"
  else
    let* _ := modify (set_replay_running false) in
    uncompromise "EngineECU".

(** [AttackManager.start_attack]; the thread it starts runs the attack's
    [execute]. *)
Definition start_attack (attack_name : string) : M bool :=
  let* w := get_world in
  let m := manager w in
  if bool_decide (attack_name ∈ attacks m)
     && negb (bool_decide (attack_name ∈ active_attacks m)) then
    let* _ := modify_manager (fun m =>
      set_active_attacks ({[ attack_name ]} ∪ active_attacks m) m) in
    let* _ := compromise (target_node attack_name) in
    let* now := time_time in
    let* _ := modify_manager (fun m =>
      add_attack_log (mkAttackLogEntry now attack_name "started"
                        (Some (target_ids (stats_of attack_name m)))) m) in
    ret true
  else ret false.

(** [AttackManager.stop_attack] *)
Definition stop_attack (attack_name : string) : M bool :=
  let* w := get_world in
  if bool_decide (attack_name ∈ active_attacks (manager w)) then
    let* _ := modify_manager (fun m =>
      set_active_attacks (active_attacks m ∖ {[ attack_name ]}) m) in
    let* _ := attack_stop attack_name in
    let* _ := uncompromise (target_node attack_name) in
    let* now := time_time in
    let* _ := modify_manager (fun m =>
      add_attack_log (mkAttackLogEntry now attack_name "stopped" None) m) in
    ret true
  else ret false.

(** ** Runs of the model *)

(** A world whose clock stands still and whose random source yields zeros. *)
Definition still_world : World := initial_world (fun _ => 0%Q) (fun _ => x00).

(** Twenty-one checks of one identifier while the clock stands still. *)
Definition burst_world : World :=
  @security_run toy_crypto (replicate 21 (OpCheckRateLimit 0x100)) still_world.

(** The engine's controller as [CANSimulation.__init__] sets it up. *)
Definition engine_controller : CANController :=
  subscribe [0x0A0; 0x300] (new_controller "EngineECU").

(** [n] calls of [send] with fresh frames of one identifier and payload. *)
Fixpoint send_times `{!Crypto} (n : nat) (self : CANController) (arb_id : Z)
    (payload : list byte) : M CANController :=
  match n with
  | O => ret self
  | S n' =>
      let* self := send self (new_frame arb_id payload) in
      send_times n' self arb_id payload
  end.

(** Rate limiting enabled, and twenty-one checks of one identifier while the
    clock stands still. *)
Definition limited_world : World :=
  @security_run toy_crypto
    (OpToggleMeasure "rate_limiting" true :: replicate 21 (OpCheckRateLimit 0x100))
    still_world.

(** A clock that reads 12.5 ms apart while the baseline is learnt and 10
    microseconds apart afterwards. *)
Definition two_speed_clock (n : nat) : Q :=
  if (n <? 82)%nat then inject_Z (Z.of_nat n) / 80
  else 2 + inject_Z (Z.of_nat n) / 100000.

(** The intrusion detection learns the engine's 20 Hz traffic; then learning
    ends and authentication and rate limiting are switched on. *)
Definition guarded_run : M CANController :=
  let* _ := toggle_measure "ids" true in
  let* engine := @send_times toy_crypto 20 engine_controller 0x100 [x0b; xb8] in
  let* _ := finish_learning in
  let* _ := toggle_measure "authentication" true in
  let* _ := toggle_measure "rate_limiting" true in
  ret engine.

Definition guarded_world : World :=
  (guarded_run (initial_world two_speed_clock (fun _ => x00))).2.

(** On top of that, the replay attack is started and runs one pass. *)
Definition replayed_world : World :=
  (replay_execute 1 (start_attack "replay" guarded_world).2).2.
(** *** Correctness of the heap operations

  [lt] is Python's [<] on the heap's items.  The heap algorithms are correct
  for any strict weak order: [lt] is asymmetric and "not smaller than" is
  transitive. *)

Section HeapqFacts.
Context {A : Type} (lt : A -> A -> bool).
Context (lt_asym : forall a b, lt a b = true -> lt b a = false).
Context (le_trans : forall a b c, lt b a = false -> lt c b = false -> lt c a = false).

(** The item at [i] is not smaller than its parent. *)
Definition edge_ok (h : list A) (i : nat) : Prop :=
  forall x p, h !! i = Some x -> h !! parent i = Some p -> lt x p = false.

Definition heap_ok (h : list A) : Prop :=
  forall i, (0 < i)%nat -> edge_ok h i.

(** Heap order everywhere but between [pos] and its parent, with the
    children of [pos] not smaller than the parent of [pos]. *)
Definition up_inv (h : list A) (pos : nat) : Prop :=
  (pos < length h)%nat /\
  (forall i, (0 < i)%nat -> i <> pos -> edge_ok h i) /\
  (forall c v g, (0 < pos)%nat -> (0 < c)%nat -> parent c = pos ->
     h !! c = Some v -> h !! parent pos = Some g -> lt v g = false).

(** Heap order on the edges that do not touch [pos], with the children of
    [pos] not smaller than the parent of [pos]. *)
Definition down_inv (h : list A) (pos : nat) : Prop :=
  (pos < length h)%nat /\
  (forall i, (0 < i)%nat -> i <> pos -> parent i <> pos -> edge_ok h i) /\
  (forall c v g, (0 < pos)%nat -> (0 < c)%nat -> parent c = pos ->
     h !! c = Some v -> h !! parent pos = Some g -> lt v g = false).

Lemma lt_irrefl a : lt a a = false.
Proof. destruct (lt a a) eqn:E; [by rewrite (lt_asym _ _ E) in E | done]. Qed.

Lemma heap_ok_nil : heap_ok [].
Proof. intros i _ x p Hx. by rewrite lookup_nil in Hx. Qed.

Lemma heap_ok_take h n : heap_ok h -> heap_ok (take n h).
Proof.
  intros Hh i Hi x p Hx Hp.
  apply lookup_take_Some in Hx as [Hx _]. apply lookup_take_Some in Hp as [Hp _].
  by apply (Hh i Hi).
Qed.

(** The root of a heap is not larger than any item. *)
Lemma heap_root_min h r :
  heap_ok h -> h !! 0%nat = Some r -> forall i x, h !! i = Some x -> lt x r = false.
Proof.
  intros Hh Hr i. induction (lt_wf i) as [i _ IH]. intros x Hx.
  destruct (decide (i = 0%nat)) as [->|Hi].
  - rewrite Hr in Hx. injection Hx as <-. apply lt_irrefl.
  - assert (parent i < i)%nat as Hpi by (apply parent_lt; lia).
    destruct (lookup_lt_is_Some_2 h (parent i)) as [p Hp].
    { apply lookup_lt_Some in Hx. lia. }
    apply (le_trans r p x).
    + by apply (IH (parent i)).
    + apply (Hh i); [lia|done..].
Qed.

Lemma insert_cons_perm (t : list A) k a b :
  t !! k = Some a -> a :: <[k := b]> t ≡ₚ b :: t.
Proof.
  revert k. induction t as [|c t IHt]; intros [|k] Hk; simplify_eq/=.
  - apply perm_swap.
  - rewrite perm_swap. rewrite (IHt k Hk). apply perm_swap.
Qed.

Lemma insert_swap_perm (h : list A) i j x y :
  h !! j = Some y -> (i < length h)%nat ->
  <[j := x]> (<[i := y]> h) ≡ₚ <[i := x]> h.
Proof.
  revert i j. induction h as [|c h IH]; intros [|i] [|j] Hj Hi; simplify_eq/=; try lia.
  - done.
  - by apply insert_cons_perm.
  - rewrite <-(list_insert_insert_eq h i y x). apply insert_cons_perm.
    apply list_lookup_insert_eq. lia.
  - f_equiv. apply IH; [done|lia].
Qed.

Lemma up_inv_step h pos x par :
  up_inv h pos -> (0 < pos)%nat ->
  h !! parent pos = Some par -> lt x par = true ->
  up_inv (<[parent pos := x]> (<[pos := par]> h)) (parent pos).
Proof.
  intros (Hlen & Hedges & Hgr) Hpos Hpar Hlt.
  pose proof (parent_lt pos Hpos) as Hpp.
  assert (forall k, (<[parent pos := x]> (<[pos := par]> h)) !! k =
            if decide (k = parent pos) then Some x
            else if decide (k = pos) then Some par else h !! k) as Hlk.
  { intros k. rewrite !list_lookup_insert, !length_insert.
    repeat case_decide; try done; lia. }
  split; [by rewrite !length_insert; lia|]. split.
  - intros i Hi Hne v p. rewrite !Hlk. clear Hlk. intros Hv Hp.
    assert (parent i < i)%nat by (apply parent_lt; lia).
    repeat case_decide; simplify_eq; try lia.
    + by apply lt_asym.
    + eapply le_trans; [eapply lt_asym; eassumption|].
      eapply (Hedges i); [lia|done|eassumption|congruence].
    + eapply (Hgr i); eauto.
    + by apply (Hedges i).
  - intros c v g Hpp0 Hc Hcp. rewrite !Hlk. clear Hlk. intros Hv Hg.
    assert (parent (parent pos) < parent pos)%nat by (apply parent_lt; lia).
    assert (parent c < c)%nat by (apply parent_lt; lia).
    assert (lt par g = false) as Hpg.
    { clear Hv. repeat case_decide; simplify_eq; try lia.
      eapply (Hedges (parent pos)); [lia|lia|eassumption|eassumption]. }
    repeat case_decide; simplify_eq; try lia; [done|].
    eapply le_trans; [exact Hpg|].
    eapply (Hedges c); [lia|lia|eassumption|congruence].
Qed.

Lemma up_inv_done h pos :
  up_inv h pos -> ((0 < pos)%nat -> edge_ok h pos) -> heap_ok h.
Proof.
  intros (_ & Hedges & _) Hpos i Hi.
  destruct (decide (i = pos)) as [->|]; auto.
Qed.

Lemma siftdown_loop_spec heap pos newitem :
  up_inv (<[pos := newitem]> heap) pos ->
  heap_ok (siftdown_loop lt heap 0 pos newitem) /\
  siftdown_loop lt heap 0 pos newitem ≡ₚ <[pos := newitem]> heap.
Proof.
  remember 0%nat as startpos eqn:Hs.
  funelim (siftdown_loop lt heap startpos pos newitem).
  all: intros Hinv; pose proof Hinv as (Hlen & _ & _); rewrite length_insert in Hlen.
  - split; [|done]. apply (up_inv_done _ pos); [done|lia].
  - exfalso. apply lookup_ge_None_1 in Heq. pose proof (parent_lt pos). lia.
  - pose proof (parent_lt pos ltac:(lia)) as Hpp.
    assert (up_inv (<[parent pos := newitem]> (<[pos := par]> heap)) (parent pos))
      as Hinv'.
    { rewrite <-(list_insert_insert_eq heap pos par newitem).
      apply up_inv_step; [done|lia| |done].
      rewrite list_lookup_insert_ne by lia. done. }
    destruct H as [Hok Hperm]; [done..|].
    split; [done|]. rewrite Hperm. by apply insert_swap_perm.
  - split; [|done]. apply (up_inv_done _ pos); [done|].
    intros _ x p. rewrite list_lookup_insert_eq by done.
    pose proof (parent_lt pos ltac:(lia)) as Hpp.
    rewrite list_lookup_insert_ne by lia. congruence.
Qed.

Lemma heappush_spec h item :
  heap_ok h -> heap_ok (heappush lt h item) /\ heappush lt h item ≡ₚ item :: h.
Proof.
  intros Hh. unfold heappush, siftdown.
  rewrite length_app, Nat.add_sub. simpl.
  rewrite lookup_app_r, Nat.sub_diag by done. simpl.
  assert (<[length h := item]> (h ++ [item]) = h ++ [item]) as Hid.
  { apply list_insert_id. by rewrite lookup_app_r, Nat.sub_diag. }
  destruct (siftdown_loop_spec (h ++ [item]) (length h) item) as [Hok Hperm].
  - rewrite Hid. split; [rewrite length_app; simpl; lia|]. split.
    + intros i Hi Hne x p Hx Hp.
      assert (parent i < i)%nat by (apply parent_lt; lia).
      assert (i < length h)%nat.
      { apply lookup_lt_Some in Hx. rewrite length_app in Hx. simpl in Hx. lia. }
      rewrite lookup_app_l in Hx, Hp by lia. by apply (Hh i).
    + intros c v g Hpos Hc Hcp Hv.
      assert (parent c < c)%nat by (apply parent_lt; lia).
      apply lookup_lt_Some in Hv. rewrite length_app in Hv. simpl in Hv. lia.
  - split; [done|]. rewrite Hperm, Hid. by rewrite Permutation_app_comm.
Qed.

Lemma smaller_child_spec h pos :
  let c := smaller_child lt h (length h) pos in
  parent c = pos /\ (pos < c)%nat /\
  forall s x v, s <> c -> (0 < s)%nat -> parent s = pos ->
    h !! s = Some x -> h !! c = Some v -> lt x v = false.
Proof.
  assert (forall s, (0 < s)%nat -> parent s = pos ->
            s = (2 * pos + 1)%nat \/ s = (2 * pos + 2)%nat) as Hkids.
  { intros s Hs. unfold parent.
    intros Hp. pose proof (Nat.div_mod_eq (s - 1) 2) as Hd.
    pose proof (Nat.mod_upper_bound (s - 1) 2). lia. }
  assert (parent (2 * pos + 1) = pos /\ parent (2 * pos + 2) = pos) as [Hl Hr].
  { unfold parent. split.
    - replace (2 * pos + 1 - 1)%nat with (pos * 2)%nat by lia. by apply Nat.div_mul.
    - replace (2 * pos + 2 - 1)%nat with (1 + pos * 2)%nat by lia.
      by rewrite Nat.div_add. }
  unfold smaller_child. cbv zeta.
  replace (2 * pos + 1 + 1)%nat with (2 * pos + 2)%nat by lia.
  case_decide as Hright.
  - destruct (h !! (2 * pos + 1)%nat) as [cl|] eqn:Hcl.
    2:{ apply lookup_ge_None_1 in Hcl. lia. }
    destruct (h !! (2 * pos + 2)%nat) as [cr|] eqn:Hcr.
    2:{ apply lookup_ge_None_1 in Hcr. lia. }
    destruct (lt cl cr) eqn:Hlt; cbn [negb].
    + split; [done|]. split; [lia|]. intros s x v Hne Hs Hps Hx Hv.
      destruct (Hkids s Hs Hps) as [->| ->]; [done|].
      simplify_eq. by apply lt_asym.
    + split; [done|]. split; [lia|]. intros s x v Hne Hs Hps Hx Hv.
      destruct (Hkids s Hs Hps) as [->| ->]; [|done].
      by simplify_eq.
  - split; [done|]. split; [lia|]. intros s x v Hne Hs Hps Hx Hv.
    destruct (Hkids s Hs Hps) as [->| ->]; [done|].
    apply lookup_lt_Some in Hx. lia.
Qed.

Lemma down_inv_step h pos v :
  down_inv h pos ->
  h !! smaller_child lt h (length h) pos = Some v ->
  down_inv (<[pos := v]> h) (smaller_child lt h (length h) pos).
Proof.
  intros (Hlen & Hedges & Hgr) Hv.
  destruct (smaller_child_spec h pos) as (Hcp & Hc & Hmin).
  set (c := smaller_child lt h (length h) pos) in *.
  assert (forall k, <[pos := v]> h !! k = if decide (k = pos) then Some v else h !! k)
    as Hlk.
  { intros k. rewrite list_lookup_insert. repeat case_decide; try done; lia. }
  split; [rewrite length_insert; by apply lookup_lt_Some in Hv|]. split.
  - intros i Hi Hic Hpic x p. rewrite !Hlk. clear Hlk. intros Hx Hp.
    assert (parent i < i)%nat by (apply parent_lt; lia).
    repeat case_decide; simplify_eq; try lia;
      first [ by apply (Hedges i)
            | by eapply (Hmin i); eauto
            | eapply (Hgr c); eauto; lia ].
  - intros k x g _ Hk Hkc. rewrite !Hlk. clear Hlk. intros Hx Hg.
    assert (parent k < k)%nat by (apply parent_lt; lia).
    repeat case_decide; simplify_eq; try lia.
    apply (Hedges k); [lia|lia|lia|done|by rewrite Hkc].
Qed.

Lemma siftup_loop_spec heap endpos pos :
  endpos = length heap -> down_inv heap pos ->
  down_inv (siftup_loop lt heap endpos pos).1 (siftup_loop lt heap endpos pos).2 /\
  (length heap <= 2 * (siftup_loop lt heap endpos pos).2 + 1)%nat /\
  length (siftup_loop lt heap endpos pos).1 = length heap /\
  forall x, <[(siftup_loop lt heap endpos pos).2 := x]> (siftup_loop lt heap endpos pos).1
              ≡ₚ <[pos := x]> heap.
Proof.
  funelim (siftup_loop lt heap endpos pos).
  all: intros -> Hinv; cbn [fst snd].
  - split; [done|]. split; [lia|]. done.
  - destruct H as (Hd & Hleaf & Hlength & Hperm).
    + by rewrite length_insert.
    + by apply down_inv_step.
    + rewrite length_insert in Hleaf, Hlength.
      split; [done|]. split; [done|]. split; [done|].
      intros x. rewrite Hperm. apply insert_swap_perm; [done|]. by destruct Hinv.
  - exfalso. apply lookup_ge_None_1 in Heq.
    destruct (smaller_child_cases lt heap (length heap) pos) as [E|[E ?]];
      rewrite E in Heq; lia.
Qed.

Lemma down_leaf_up h pos x :
  down_inv h pos -> (length h <= 2 * pos + 1)%nat -> up_inv (<[pos := x]> h) pos.
Proof.
  intros (Hlen & Hedges & Hgr) Hleaf.
  assert (forall c, (0 < c)%nat -> parent c = pos -> (2 * pos + 1 <= c)%nat) as Hkid.
  { intros c Hc. unfold parent. intros Hp.
    pose proof (Nat.div_mod_eq (c - 1) 2) as Hd.
    pose proof (Nat.mod_upper_bound (c - 1) 2). lia. }
  split; [by rewrite length_insert|]. split.
  - intros i Hi Hne y p Hy Hp.
    rewrite list_lookup_insert_ne in Hy by done.
    destruct (decide (parent i = pos)) as [E|E].
    + apply lookup_lt_Some in Hy. specialize (Hkid i Hi E). lia.
    + rewrite list_lookup_insert_ne in Hp by done. by apply (Hedges i).
  - intros c v g _ Hc Hcp Hv. apply lookup_lt_Some in Hv.
    rewrite length_insert in Hv. specialize (Hkid c Hc Hcp). lia.
Qed.

Lemma siftup_spec h :
  (0 < length h)%nat ->
  (forall i, (0 < i)%nat -> parent i <> 0%nat -> edge_ok h i) ->
  heap_ok (siftup lt h 0) /\ siftup lt h 0 ≡ₚ h.
Proof.
  intros Hlen Hedges. unfold siftup.
  destruct (lookup_lt_is_Some_2 h 0 Hlen) as [newitem Hroot]. rewrite Hroot.
  destruct (siftup_loop_spec h (length h) 0 eq_refl) as (Hd & Hleaf & Hlength & Hperm).
  { split; [done|]. split; [|lia]. intros i Hi _ Hp. by apply Hedges. }
  destruct (siftup_loop lt h (length h) 0) as [h' pos'] eqn:Hloop. simpl in *.
  assert (pos' < length h')%nat as Hpos' by (by destruct Hd).
  unfold siftdown. rewrite list_lookup_insert_eq by done.
  destruct (siftdown_loop_spec (<[pos' := newitem]> h') pos' newitem) as [Hok Hp].
  { rewrite list_insert_insert_eq. apply down_leaf_up; [done|lia]. }
  split; [done|].
  rewrite Hp, list_insert_insert_eq, Hperm. by rewrite list_insert_id.
Qed.

Lemma heappop_None h : heappop lt h = None <-> h = [].
Proof.
  unfold heappop. destruct (last h) as [lastelt|] eqn:Hlast.
  - split; [by destruct (take _ h !! _)|]. intros ->. done.
  - by apply last_None in Hlast.
Qed.

Lemma heappop_spec h x h' :
  heap_ok h -> heappop lt h = Some (x, h') ->
  heap_ok h' /\ h ≡ₚ x :: h' /\ h !! 0%nat = Some x.
Proof.
  intros Hh. unfold heappop.
  destruct (last h) as [lastelt|] eqn:Hlast; [|done].
  apply last_Some in Hlast as [body ->].
  rewrite length_app, Nat.add_sub, take_app_length.
  destruct (body !! 0%nat) as [returnitem|] eqn:Hroot; intros ?; simplify_eq.
  - destruct (siftup_spec (<[0%nat := lastelt]> body)) as [Hok Hperm].
    + rewrite length_insert. by apply lookup_lt_Some in Hroot.
    + intros i Hi Hp y p Hy Hpy.
      assert (parent i < i)%nat by (apply parent_lt; lia).
      rewrite list_lookup_insert_ne in Hy, Hpy by lia.
      apply (Hh i Hi); by apply lookup_app_l_Some.
    + split; [done|]. split; [|by apply lookup_app_l_Some].
      rewrite Hperm, insert_cons_perm by done. apply Permutation_app_comm.
  - destruct h' as [|? ?]; [|done]. split; [apply heap_ok_nil|done].
Qed.

(** The item [heappop] returns is not larger than any item of the heap. *)
Lemma heappop_min h x h' y :
  heap_ok h -> heappop lt h = Some (x, h') -> y ∈ h -> lt y x = false.
Proof.
  intros Hh Hpop Hy. destruct (heappop_spec _ _ _ Hh Hpop) as (_ & _ & Hroot).
  apply list_elem_of_lookup in Hy as [i Hi]. by apply (heap_root_min h x Hh Hroot i).
Qed.
End HeapqFacts.


(** ** The order of frames and the order of arbitration *)

Lemma bytes_lt_asym a b : bytes_lt a b = true -> bytes_lt b a = false.
Proof.
  revert b. induction a as [|x a IH]; intros [|y b]; simpl; try done.
  destruct (N.ltb_spec (byte_val x) (byte_val y)), (N.ltb_spec (byte_val y) (byte_val x));
    try done; try lia.
  apply IH.
Qed.

Lemma bytes_lt_trans a b c :
  bytes_lt a b = true -> bytes_lt b c = true -> bytes_lt a c = true.
Proof.
  revert b c. induction a as [|x a IH]; intros [|y b] [|z c]; simpl; try done.
  destruct (N.ltb_spec (byte_val x) (byte_val y)), (N.ltb_spec (byte_val y) (byte_val x)),
    (N.ltb_spec (byte_val y) (byte_val z)), (N.ltb_spec (byte_val z) (byte_val y)),
    (N.ltb_spec (byte_val x) (byte_val z)), (N.ltb_spec (byte_val z) (byte_val x));
    try done; try lia.
  apply IH.
Qed.

Lemma bytes_le_trans a b c :
  bytes_lt b a = false -> bytes_lt c b = false -> bytes_lt c a = false.
Proof.
  revert b c. induction a as [|x a IH]; intros [|y b] [|z c]; simpl; try done.
  destruct (N.ltb_spec (byte_val x) (byte_val y)), (N.ltb_spec (byte_val y) (byte_val x)),
    (N.ltb_spec (byte_val y) (byte_val z)), (N.ltb_spec (byte_val z) (byte_val y)),
    (N.ltb_spec (byte_val x) (byte_val z)), (N.ltb_spec (byte_val z) (byte_val x));
    try done; try lia.
  apply IH.
Qed.

Lemma bytes_lt_total a b : bytes_lt a b = false -> bytes_lt b a = false -> a = b.
Proof.
  revert b. induction a as [|x a IH]; intros [|y b]; simpl; try done.
  destruct (N.ltb_spec (byte_val x) (byte_val y)), (N.ltb_spec (byte_val y) (byte_val x));
    try done.
  intros Hab Hba. f_equal; [apply byte_val_inj; lia | by apply IH].
Qed.

Lemma bytes_lt_lex a b : bytes_lt a b = true <-> lex_lt a b.
Proof.
  split.
  - revert b. induction a as [|x a IH]; intros [|y b]; simpl; try done.
    + intros _. apply lex_prefix.
    + destruct (N.ltb_spec (byte_val x) (byte_val y)); [intros _; by apply lex_head|].
      destruct (N.ltb_spec (byte_val y) (byte_val x)); [done|].
      intros Hab. assert (x = y) as -> by (apply byte_val_inj; lia).
      apply lex_tail. by apply IH.
  - induction 1 as [y b|x a y b Hxy|x a b _ IH]; simpl.
    + done.
    + by destruct (N.ltb_spec (byte_val x) (byte_val y)); [|lia].
    + by rewrite N.ltb_irrefl.
Qed.

(** [frame_lt] compares the identifiers, and the payloads of frames with the
    same identifier. *)
Lemma frame_lt_alt a b :
  frame_lt a b =
    (arbitration_id a <? arbitration_id b)
    || ((arbitration_id a =? arbitration_id b) && bytes_lt (data a) (data b)).
Proof.
  unfold frame_lt.
  destruct (Z.eqb_spec (arbitration_id a) (arbitration_id b)) as [E|E]; simpl.
  - rewrite E, Z.ltb_irrefl. simpl. case_bool_decide as Hd; simpl; [|done].
    rewrite Hd. symmetry.
    destruct (bytes_lt (data b) (data b)) eqn:Hbb; [|done].
    by rewrite (bytes_lt_asym _ _ Hbb) in Hbb.
  - by rewrite orb_false_r.
Qed.

Lemma frame_lt_asym a b : frame_lt a b = true -> frame_lt b a = false.
Proof.
  rewrite !frame_lt_alt.
  destruct (Z.ltb_spec (arbitration_id a) (arbitration_id b)),
    (Z.ltb_spec (arbitration_id b) (arbitration_id a)),
    (Z.eqb_spec (arbitration_id a) (arbitration_id b)),
    (Z.eqb_spec (arbitration_id b) (arbitration_id a)); simpl; try done; try lia.
  apply bytes_lt_asym.
Qed.

Lemma frame_le_trans a b c :
  frame_lt b a = false -> frame_lt c b = false -> frame_lt c a = false.
Proof.
  rewrite !frame_lt_alt.
  destruct (Z.ltb_spec (arbitration_id b) (arbitration_id a)),
    (Z.ltb_spec (arbitration_id c) (arbitration_id b)),
    (Z.ltb_spec (arbitration_id c) (arbitration_id a)),
    (Z.eqb_spec (arbitration_id b) (arbitration_id a)),
    (Z.eqb_spec (arbitration_id c) (arbitration_id b)),
    (Z.eqb_spec (arbitration_id c) (arbitration_id a)); simpl; try done; try lia.
  apply bytes_le_trans.
Qed.

Lemma frame_lt_trans a b c :
  frame_lt a b = true -> frame_lt b c = true -> frame_lt a c = true.
Proof.
  rewrite !frame_lt_alt.
  destruct (Z.ltb_spec (arbitration_id a) (arbitration_id b)),
    (Z.ltb_spec (arbitration_id b) (arbitration_id c)),
    (Z.ltb_spec (arbitration_id a) (arbitration_id c)),
    (Z.eqb_spec (arbitration_id a) (arbitration_id b)),
    (Z.eqb_spec (arbitration_id b) (arbitration_id c)),
    (Z.eqb_spec (arbitration_id a) (arbitration_id c)); simpl; try done; try lia.
  apply bytes_lt_trans.
Qed.

Lemma frame_lt_total a b :
  frame_lt a b = true \/ frame_lt b a = true \/
  (arbitration_id a = arbitration_id b /\ data a = data b).
Proof.
  rewrite !frame_lt_alt.
  destruct (Z.ltb_spec (arbitration_id a) (arbitration_id b)),
    (Z.ltb_spec (arbitration_id b) (arbitration_id a)),
    (Z.eqb_spec (arbitration_id a) (arbitration_id b)),
    (Z.eqb_spec (arbitration_id b) (arbitration_id a)); simpl; try lia; auto.
  destruct (bytes_lt (data a) (data b)) eqn:Hab; [auto|].
  destruct (bytes_lt (data b) (data a)) eqn:Hba; [auto|].
  right; right. split; [done|]. by apply bytes_lt_total.
Qed.

(** The order the spec gives: identifier first, payload bytes to break ties. *)
Definition frame_before (a b : CANFrame) : Prop :=
  arbitration_id a < arbitration_id b \/
  (arbitration_id a = arbitration_id b /\ lex_lt (data a) (data b)).

Lemma frame_lt_before a b : frame_lt a b = true <-> frame_before a b.
Proof.
  rewrite frame_lt_alt. unfold frame_before. rewrite <-bytes_lt_lex.
  destruct (Z.ltb_spec (arbitration_id a) (arbitration_id b)),
    (Z.eqb_spec (arbitration_id a) (arbitration_id b)); simpl; intuition lia.
Qed.

(** The queue of the bus stays a heap whatever is sent and popped. *)
Lemma bus_send_heap_ok frame b :
  heap_ok frame_lt (tx_queue b) -> heap_ok frame_lt (tx_queue (bus_send frame b)).
Proof.
  intros Hb. unfold bus_send. simpl.
  by apply (heappush_spec frame_lt frame_lt_asym frame_le_trans).
Qed.

Lemma bus_take_spec b :
  heap_ok frame_lt (tx_queue b) ->
  match bus_take b with
  | (Some frame, b') =>
      heap_ok frame_lt (tx_queue b') /\ tx_queue b ≡ₚ frame :: tx_queue b' /\
      (forall other, other ∈ tx_queue b -> frame_lt other frame = false)
  | (None, b') => tx_queue b = [] /\ b' = b
  end.
Proof.
  intros Hb. unfold bus_take.
  destruct (tx_queue b) as [|f q] eqn:Hq; [done|].
  destruct (heappop frame_lt (f :: q)) as [[frame q']|] eqn:Hpop.
  - destruct (heappop_spec frame_lt frame_lt_asym frame_le_trans _ _ _ Hb Hpop)
      as (Hok & Hperm & _).
    simpl. split; [done|]. split; [done|]. intros other Hin.
    by apply (heappop_min frame_lt frame_lt_asym frame_le_trans _ _ _ _ Hb Hpop).
  - by apply heappop_None in Hpop.
Qed.

Lemma bus_run_heap_ok ops b :
  heap_ok frame_lt (tx_queue b) -> heap_ok frame_lt (tx_queue (bus_run ops b)).
Proof.
  unfold bus_run. revert b. induction ops as [|op ops IH]; intros b Hb; [done|].
  simpl. apply IH. destruct op as [frame|]; simpl.
  - by apply bus_send_heap_ok.
  - pose proof (bus_take_spec b Hb) as Ht.
    destruct (bus_take b) as [[frame|] b']; simpl; [by destruct Ht|].
    destruct Ht as [_ ->]. done.
Qed.

Lemma bus_drain_passes_spec n b :
  heap_ok frame_lt (tx_queue b) -> length (tx_queue b) = n ->
  bus_drain_passes n b ≡ₚ tx_queue b /\
  StronglySorted (fun x y => frame_lt y x = false) (bus_drain_passes n b).
Proof.
  revert b. induction n as [|n IH]; intros b Hb Hlen; simpl.
  - destruct (tx_queue b); [|done]. split; [done|constructor].
  - pose proof (bus_take_spec b Hb) as Ht.
    destruct (bus_take b) as [[frame|] b'].
    + destruct Ht as (Hok & Hperm & Hmin).
      destruct (IH b' Hok) as [Hp Hs].
      { apply Permutation_length in Hperm. simpl in Hperm. lia. }
      split; [by rewrite Hperm, Hp|].
      constructor; [done|]. apply Forall_forall. intros y Hy.
      apply Hmin. rewrite Hperm. right. by rewrite <-Hp.
    + destruct Ht as [Hq _]. by rewrite Hq in Hlen.
Qed.

Lemma sorted_positions {A} (R : A -> A -> Prop) (l : list A) i j x y :
  StronglySorted R l -> (i < j)%nat -> l !! i = Some x -> l !! j = Some y -> R x y.
Proof.
  intros Hs. revert i j. induction Hs as [|a l Hs IH Hall]; intros i j Hij Hi Hj.
  - by rewrite lookup_nil in Hi.
  - destruct j as [|j]; [lia|]. destruct i as [|i]; simplify_eq/=.
    + rewrite Forall_forall in Hall. apply Hall. by eapply list_elem_of_lookup_2.
    + apply (IH i j); [lia|done..].
Qed.

(** C1. Frames are ordered by [arbitration_id] and then by the payload bytes,
    and the bus dequeues in that order: [frame_lt] is the strict order
    [frame_before], it is total up to frames with the same identifier and
    payload; in any queue reached by sends and arbitration passes, a pass
    never takes a frame [B] while a frame [A] before it is pending; and
    however a batch of frames is enqueued, the loop dequeues all of them,
    each frame ahead of every frame it is before. *)
Theorem frames_dequeued_in_priority_order :
  (forall a b, frame_lt a b = true <-> frame_before a b) /\
  (forall a, ~ frame_before a a) /\
  (forall a b c, frame_before a b -> frame_before b c -> frame_before a c) /\
  (forall a b, frame_before a b \/ frame_before b a \/
               (arbitration_id a = arbitration_id b /\ data a = data b)) /\
  (forall ops rate A B,
     let b := bus_run ops (new_bus rate) in
     A ∈ tx_queue b -> B ∈ tx_queue b -> frame_before A B ->
     exists frame b',
       bus_take b = (Some frame, b') /\ ~ frame_before A frame /\ frame <> B /\
       B ∈ tx_queue b') /\
  (forall pending rate,
     let out := bus_drain (foldl (fun b f => bus_send f b) (new_bus rate) pending) in
     out ≡ₚ pending /\
     forall i j A B,
       out !! i = Some A -> out !! j = Some B -> frame_before A B -> (i < j)%nat).
Proof.
  split; [exact frame_lt_before|].
  split.
  { intros a Ha. apply frame_lt_before in Ha.
    by rewrite (lt_irrefl frame_lt frame_lt_asym) in Ha. }
  split.
  { intros a b c. rewrite <-!frame_lt_before. apply frame_lt_trans. }
  split.
  { intros a b. rewrite <-!frame_lt_before. apply frame_lt_total. }
  split.
  - intros ops rate A B b HA HB HAB.
    assert (heap_ok frame_lt (tx_queue b)) as Hb.
    { apply bus_run_heap_ok. apply heap_ok_nil. }
    pose proof (bus_take_spec b Hb) as Ht.
    destruct (bus_take b) as [[frame|] b'].
    + destruct Ht as (Hok & Hperm & Hmin).
      assert (~ frame_before A frame) as HnA.
      { rewrite <-frame_lt_before. by rewrite (Hmin A HA). }
      assert (frame <> B) as Hne by (by intros ->).
      exists frame, b'. split; [done|]. split; [done|]. split; [done|].
      rewrite Hperm in HB. apply elem_of_cons in HB as [->|HB]; done.
    + destruct Ht as [Hq _]. rewrite Hq in HA. by apply elem_of_nil in HA.
  - intros pending rate out.
    set (b := foldl (fun b f => bus_send f b) (new_bus rate) pending) in *.
    assert (heap_ok frame_lt (tx_queue b) /\ tx_queue b ≡ₚ pending) as [Hb Hperm].
    { subst b. induction pending as [|f pending IH] using rev_ind.
      - split; [apply heap_ok_nil|done].
      - rewrite foldl_snoc. destruct IH as [IH1 IH2].
        destruct (heappush_spec frame_lt frame_lt_asym frame_le_trans _ f IH1)
          as [Hok Hp].
        split; [done|]. simpl. rewrite Hp, IH2. apply Permutation_cons_append. }
    destruct (bus_drain_passes_spec (length (tx_queue b)) b Hb eq_refl) as [Hp Hs].
    fold (bus_drain b) in Hp, Hs. fold out in Hp, Hs.
    split; [by rewrite Hp|].
    intros i j A B Hi Hj HAB. apply frame_lt_before in HAB.
    destruct (decide (i < j)%nat) as [|Hge]; [done|]. exfalso.
    destruct (decide (i = j)) as [->|Hne].
    + simplify_eq. by rewrite (lt_irrefl frame_lt frame_lt_asym) in HAB.
    + pose proof (sorted_positions _ out j i B A Hs ltac:(lia) Hj Hi) as Hle.
      simpl in Hle. congruence.
Qed.

(** ** Encryption round trip and tampering *)











Section CipherFacts.
Context `{!Crypto, !CryptoOk}.







End CipherFacts.


Section EncryptFacts.
Context `{!Crypto}.





End EncryptFacts.



(** With the stand-in cipher the run can be carried out: the altered
    ciphertext decrypts as valid, to another payload. *)
Example altered_iv_run :
  let ct := (@encrypt toy_crypto [x07] still_world).1.1 in
  (@decrypt toy_crypto (<[0%nat := x01]> ct) still_world).1.1.1 = Some [x06] /\
  (@decrypt toy_crypto (<[0%nat := x01]> ct) still_world).1.2 = true.
Proof. vm_compute. done. Qed.

(** ** Rate limiting and anomaly detection *)

(** The window kept for an identifier; a missing key reads as empty. *)
Definition window_of (arb_id : Z) (w : World) : list Q :=
  default [] (rate_windows (security w) !! arb_id).

(** The entries of a window within the trailing second of [now]. *)
Definition recent_of (now : Q) (d : list Q) : list Q :=
  filter (fun t => (now - t < 1)%Q) d.

Ltac run_monad :=
  unfold bind, ret, get_security, get_world, modify_security, modify_manager,
    modify, time_time, record_overhead, rate_window, learning_window;
  cbn -[Qminus Qplus Qmult Qdiv Qlt_dec filter deque_append Z.add Z.of_nat
        intervals Qsum Qlen Qeq_bool].

Lemma check_rate_limit_spec arb_id w :
  let now := clock w (S (clock_reads w)) in
  let d := deque_append 100 (window_of arb_id w) now in
  let recent := Z.of_nat (length (recent_of now d)) in
  let r := check_rate_limit arb_id w in
  r.1.1.1 = bool_decide (recent <= rate_limit_threshold (security w)) /\
  r.1.2 = recent /\
  rate_windows (security r.2) = <[arb_id := d]> (rate_windows (security w)) /\
  rate_limit_threshold (security r.2) = rate_limit_threshold (security w) /\
  rate_limit_violations (stats (security r.2)) =
    rate_limit_violations (stats (security w)) + (if r.1.1.1 then 0 else 1) /\
  anomalies_detected (stats (security r.2)) = anomalies_detected (stats (security w)) /\
  measures (security r.2) = measures (security w) /\
  learning_phase (security r.2) = learning_phase (security w) /\
  message_baseline (security r.2) = message_baseline (security w) /\
  bus r.2 = bus w /\ manager r.2 = manager w /\ clock r.2 = clock w /\
  clock_reads r.2 = (3 + clock_reads w)%nat.
Proof.
  unfold check_rate_limit, window_of, recent_of. run_monad.
  destruct (rate_windows (security w) !! arb_id) as [d0|] eqn:Hd0; run_monad.
  all: rewrite ?lookup_insert_eq; run_monad.
  all: rewrite ?insert_insert_eq.
  all: case_decide; run_monad.
  all: repeat split; try done.
  all: try (symmetry; apply bool_decide_eq_false; lia).
  all: try (symmetry; apply bool_decide_eq_true; lia).
  all: lia.
Qed.

Lemma check_anomaly_frame arb_id w :
  let r := check_anomaly arb_id w in
  (forall k, window_of k r.2 = window_of k w) /\
  rate_limit_threshold (security r.2) = rate_limit_threshold (security w) /\
  rate_limit_violations (stats (security r.2)) =
    rate_limit_violations (stats (security w)) /\
  anomalies_detected (stats (security r.2)) =
    anomalies_detected (stats (security w)) + (if r.1.1.1 then 0 else 1) /\
  measures (security r.2) = measures (security w) /\
  learning_phase (security r.2) = learning_phase (security w) /\
  bus r.2 = bus w /\ manager r.2 = manager w /\ clock r.2 = clock w.
Proof.
  unfold check_anomaly, window_of. run_monad.
  destruct (learning_phase (security w)) eqn:Hlearn; run_monad.
  - destruct (learning_samples (security w) !! arb_id) as [l|] eqn:Hl; run_monad.
    all: rewrite ?lookup_insert_eq; run_monad.
    all: case_decide; run_monad.
    all: repeat split; try done; lia.
  - destruct (message_baseline (security w) !! arb_id) as [baseline|] eqn:Hb; run_monad.
    2:{ repeat split; try done; lia. }
    destruct (Qeq_bool (avg_interval baseline) 0) eqn:Hzero; run_monad.
    { repeat split; try done; lia. }
    destruct (rate_windows (security w) !! arb_id) as [d|] eqn:Hd; run_monad.
    all: repeat case_decide; run_monad.
    all: repeat split; try done; try lia.
    all: intros k; destruct (decide (k = arb_id)) as [->|Hk];
      [by rewrite lookup_insert_eq, Hd | by rewrite lookup_insert_ne].
Qed.

Lemma check_anomaly_empty_window arb_id w :
  learning_phase (security w) = false -> window_of arb_id w = [] ->
  (check_anomaly arb_id w).1.1.1 = true /\ (check_anomaly arb_id w).1.2 = 0%Q.
Proof.
  unfold check_anomaly, window_of. intros Hlearn Hwin. run_monad.
  rewrite Hlearn. run_monad.
  destruct (message_baseline (security w) !! arb_id) as [baseline|] eqn:Hb; run_monad.
  2:{ done. }
  destruct (Qeq_bool (avg_interval baseline) 0) eqn:Hzero; run_monad.
  { done. }
  destruct (rate_windows (security w) !! arb_id) as [d|] eqn:Hd; run_monad.
  - simpl in Hwin. subst d. rewrite filter_nil. simpl. done.
  - rewrite filter_nil. simpl. done.
Qed.

Lemma deque_append_length {A} (d : list A) x :
  (length d <= 100)%nat -> (length (deque_append 100 d x) <= 100)%nat.
Proof.
  intros Hd. unfold deque_append. case_decide.
  - rewrite length_drop, length_app. simpl. lia.
  - rewrite length_app. simpl. lia.
Qed.

Lemma deque_append_last {A} (d : list A) x : last (deque_append 100 d x) = Some x.
Proof.
  unfold deque_append. case_decide; [|apply last_snoc].
  rewrite drop_app_le by lia. apply last_snoc.
Qed.

Lemma deque_append_drop {A} (d : list A) x :
  exists k, deque_append 100 d x = drop k d ++ [x] /\
            ((length d <= 100)%nat -> (k <= 1)%nat).
Proof.
  unfold deque_append. case_decide.
  - exists (S (length d) - 100)%nat. split; [|lia]. by rewrite drop_app_le by lia.
  - exists 0%nat. split; [done|lia].
Qed.

Lemma recent_of_now now : recent_of now [now] = [now].
Proof.
  unfold recent_of. rewrite filter_cons_True; [done|].
  unfold Qminus. rewrite Qplus_opp_r. done.
Qed.

Lemma recent_of_deque_append now d :
  (length d <= 100)%nat ->
  (length (recent_of now d) <= length (recent_of now (deque_append 100 d now)))%nat.
Proof.
  intros Hd. destruct (deque_append_drop d now) as (k & -> & Hk).
  specialize (Hk Hd). unfold recent_of at 2. rewrite filter_app.
  fold (recent_of now [now]). rewrite recent_of_now, length_app. simpl.
  destruct k as [|[|k]]; [| |lia].
  - rewrite drop_0. fold (recent_of now d). lia.
  - destruct d as [|t d]; simpl; [lia|]. rewrite drop_0.
    unfold recent_of. rewrite filter_cons. case_decide; simpl; lia.
Qed.

Lemma recent_of_aged_out now d :
  recent_of now d = [] -> recent_of now (deque_append 100 d now) = [now].
Proof.
  intros Hd. destruct (deque_append_drop d now) as (k & -> & _).
  unfold recent_of. rewrite filter_app. fold (recent_of now [now]).
  rewrite recent_of_now.
  assert (filter (fun t => (now - t < 1)%Q) (drop k d) = []) as ->; [|done].
  destruct (filter (fun t => (now - t < 1)%Q) (drop k d)) as [|t l] eqn:E; [done|].
  assert (t ∈ filter (fun t => (now - t < 1)%Q) (drop k d)) as Ht
    by (rewrite E; left).
  apply list_elem_of_filter in Ht as [Ht Hin].
  apply list_elem_of_lookup in Hin as [i Hi]. rewrite lookup_drop in Hi.
  exfalso. apply (filter_nil_not_elem_of _ _ t Hd Ht).
  by eapply list_elem_of_lookup_2.
Qed.

(** C7. A rate-limit check stores the reading of the clock at the end of the
    identifier's window, which holds at most 100 entries; it counts the
    entries of the stored window within the trailing second, fails exactly
    when that count exceeds the threshold, 20, and counts a violation exactly
    when it fails.  So it fails when more than 20 earlier entries lie within
    the trailing second, and passes when all earlier entries are a second old
    or older. *)
Theorem check_rate_limit_window (arb_id : Z) (w : World) :
  rate_limit_threshold (security w) = 20 ->
  (length (window_of arb_id w) <= 100)%nat ->
  let now := clock w (S (clock_reads w)) in
  let r := check_rate_limit arb_id w in
  let stored := window_of arb_id r.2 in
  stored = deque_append 100 (window_of arb_id w) now /\
  last stored = Some now /\
  (length stored <= 100)%nat /\
  r.1.2 = Z.of_nat (length (recent_of now stored)) /\
  (r.1.1.1 = false <-> 20 < r.1.2) /\
  rate_limit_violations (stats (security r.2)) =
    rate_limit_violations (stats (security w)) + (if r.1.1.1 then 0 else 1) /\
  rate_limit_threshold (security r.2) = 20 /\
  (20 < Z.of_nat (length (recent_of now (window_of arb_id w))) -> r.1.1.1 = false) /\
  (recent_of now (window_of arb_id w) = [] -> r.1.1.1 = true).
Proof.
  intros Hthr Hlen now r stored.
  destruct (check_rate_limit_spec arb_id w)
    as (Hallowed & Hcount & Hwin & Hthr' & Hviol & _).
  fold now in Hallowed, Hcount, Hwin. fold r in Hallowed, Hcount, Hwin, Hthr', Hviol.
  assert (stored = deque_append 100 (window_of arb_id w) now) as Hstored.
  { unfold stored, window_of at 1. by rewrite Hwin, lookup_insert_eq. }
  rewrite Hstored, Hcount, Hallowed, Hthr.
  split; [done|]. split; [apply deque_append_last|].
  split; [by apply deque_append_length|]. split; [done|].
  split; [rewrite bool_decide_eq_false; lia|].
  split; [by rewrite Hviol, Hallowed, Hthr|].
  split; [by rewrite Hthr', Hthr|]. split.
  - intros Hburst. apply bool_decide_eq_false.
    pose proof (recent_of_deque_append now (window_of arb_id w) Hlen). lia.
  - intros Haged. apply bool_decide_eq_true.
    rewrite (recent_of_aged_out now _ Haged). simpl. lia.
Qed.

Lemma check_rate_limit_window_witness :
  (check_rate_limit 0x100 burst_world).1.1.1 = false.
Proof.
  refine (proj1 (proj2 (proj2 (proj2 (proj2 (proj2 (proj2 (proj2
    (check_rate_limit_window 0x100 burst_world _ _)))))))) _).
  - vm_compute. reflexivity.
  - vm_compute. lia.
  - vm_compute. reflexivity.
Defined.

(** A clock that advances a second at every reading never trips the limit. *)
Example slow_clock_passes :
  let w := @security_run toy_crypto (replicate 30 (OpCheckRateLimit 0x100))
             (initial_world (fun n => inject_Z (Z.of_nat n)) (fun _ => x00)) in
  (check_rate_limit 0x100 w).1.1.1 = true /\
  rate_limit_violations (stats (security w)) = 0.
Proof. vm_compute. done. Qed.

Section SecurityTraces.
Context `{!Crypto}.

Lemma security_step_window arb_id w op :
  op <> OpCheckRateLimit arb_id ->
  window_of arb_id (security_step w op) = window_of arb_id w.
Proof.
  intros Hop. destruct op as [m e|p|p|p|p|j|j|]; unfold security_step.
  - unfold toggle_measure, window_of. run_monad. by repeat case_decide.
  - unfold encrypt, get_random_bytes, window_of. run_monad. done.
  - unfold decrypt, window_of. run_monad. by destruct (aes_cbc_decrypt p).
  - unfold add_hmac, window_of. run_monad. done.
  - unfold verify_hmac, window_of. run_monad. done.
  - destruct (check_rate_limit_spec j w) as (_ & _ & Hwin & _).
    unfold window_of. rewrite Hwin, lookup_insert_ne; [done|congruence].
  - by destruct (check_anomaly_frame j w) as (Hwin & _).
  - done.
Qed.

Lemma security_run_window arb_id ops w :
  OpCheckRateLimit arb_id ∉ ops ->
  window_of arb_id (security_run ops w) = window_of arb_id w.
Proof.
  unfold security_run. revert w. induction ops as [|op ops IH]; intros w Hops; [done|].
  simpl. rewrite IH by (intros Hin; apply Hops; by right).
  apply security_step_window. intros ->. apply Hops. left.
Qed.

(** C10. In detection mode [check_anomaly] leaves the timestamps of every
    window as they are, and reads the window that [check_rate_limit] fills:
    after any calls of the security manager's methods that do not check the
    rate limit of [arb_id], a check for anomalies of [arb_id] passes and the
    counter of anomalies stays as it is. *)
Theorem check_anomaly_needs_rate_window :
  (forall arb_id w k,
     learning_phase (security w) = false ->
     window_of k (check_anomaly arb_id w).2 = window_of k w) /\
  (forall ops clk rnd arb_id,
     OpCheckRateLimit arb_id ∉ ops ->
     let w := security_run ops (initial_world clk rnd) in
     learning_phase (security w) = false ->
     (check_anomaly arb_id w).1.1.1 = true /\
     (check_anomaly arb_id w).1.2 = 0%Q /\
     anomalies_detected (stats (security (check_anomaly arb_id w).2)) =
       anomalies_detected (stats (security w))).
Proof.
  split.
  - intros arb_id w k _. by destruct (check_anomaly_frame arb_id w) as (Hwin & _).
  - intros ops clk rnd arb_id Hops w Hlearn.
    assert (window_of arb_id w = []) as Hwin.
    { unfold w. by rewrite security_run_window. }
    destruct (check_anomaly_empty_window arb_id w Hlearn Hwin) as [Hpass Hmetric].
    destruct (check_anomaly_frame arb_id w) as (_ & _ & _ & Hcount & _).
    rewrite Hpass in Hcount. split; [done|]. split; [done|]. lia.
Qed.

End SecurityTraces.

(** ** The send and receive pipelines of a controller *)

Section ControllerFacts.
Context `{!Crypto}.







(** C9 as the spec states it: a frame marked authenticated whose MAC does
    not verify always degrades the health and is never logged. *)
Definition authenticated_frames_always_verified : Prop :=
  forall self frame w,
    authenticated frame = true ->
    (verify_hmac (data frame) (time_time w).2).1.2 = false ->
    health_status (receive self frame w).1 = "warning" /\
    log (receive self frame w).1 = log self.

(** C9, amended. While the authentication measure is enabled, [receive]
    verifies the MAC of a frame marked authenticated first; when the MAC does
    not verify it logs one [authentication_failed] event, sets the health to
    warning and stops: nothing is decrypted (the clock is read by [receive]
    once and by [verify_hmac] twice, and by nothing else), and the latency
    history and the log are as before. *)
Theorem receive_authentication_failure self frame w :
  authentication (measures (security w)) = true ->
  authenticated frame = true ->
  (verify_hmac (data frame) (time_time w).2).1.2 = false ->
  let r := receive self frame w in
  health_status r.1 = "warning" /\
  attack_events r.1 =
    attack_events self ++
    [mkAttackEvent (clock w (clock_reads w)) "authentication_failed"
       (arbitration_id frame) None] /\
  latency_history r.1 = latency_history self /\
  security_overhead_history r.1 = security_overhead_history self /\
  log r.1 = log self /\
  subscriptions r.1 = subscriptions self /\
  security r.2 = security w /\ bus r.2 = bus w /\
  clock_reads r.2 = (3 + clock_reads w)%nat.
Proof.
  intros Hauth Hmarked Hinvalid.
  unfold verify_hmac in Hinvalid. revert Hinvalid. run_monad. intros Hinvalid.
  unfold receive, verify_hmac. run_monad. rewrite Hauth, Hmarked. run_monad.
  rewrite Hinvalid. run_monad. done.
Qed.

End ControllerFacts.

(** ** Runs of the controller pipelines *)

(** With rate limiting enabled, the controller's send after a burst is
    blocked: the queue stays empty and no overhead is recorded. *)
Example blocked_send_run :
  let r := @send toy_crypto engine_controller (new_frame 0x100 [x0b; xb8]) limited_world in
  tx_queue (bus r.2) = [] /\
  event_type <$> attack_events r.1 = ["rate_limit_violation"] /\
  security_overhead_history r.1 = [].
Proof. vm_compute. done. Qed.

(** After learning, three quick sends of the engine's identifier raise an
    anomaly alert on the third, and all three frames are on the queue. *)
Example ids_alert_run :
  let r := @send_times toy_crypto 3 engine_controller 0x100 [x0b; xb8] guarded_world in
  event_type <$> attack_events r.1 = ["anomaly_detected"] /\
  length (tx_queue (bus r.2)) = (length (tx_queue (bus guarded_world)) + 3)%nat /\
  length (security_overhead_history r.1) = 3%nat.
Proof. vm_compute. done. Qed.


(** A frame marked authenticated whose payload is too short to carry a MAC. *)
Definition forged_frame : CANFrame :=
  mkCANFrame 0x0A0 [x00] 0 128 "ATTACKER" false true.

(** The world with the authentication measure switched on. *)
Definition authenticating_world : World :=
  (toggle_measure "authentication" true still_world).2.

Lemma receive_authentication_failure_witness :
  health_status (@receive toy_crypto engine_controller forged_frame
                   authenticating_world).1 = "warning" /\
  log (@receive toy_crypto engine_controller forged_frame authenticating_world).1 = [].
Proof.
  pose proof (@receive_authentication_failure toy_crypto engine_controller forged_frame
                authenticating_world eq_refl eq_refl eq_refl) as H.
  exact (conj (proj1 H) (proj1 (proj2 (proj2 (proj2 (proj2 H)))))).
Defined.

(** C9 fails as stated, whatever the keyed hash (of 32 bytes): with the
    authentication measure disabled the forged frame is not verified, the
    health stays healthy and the frame is logged. *)
Lemma unverified_when_measure_disabled :
  ~ exists C : Crypto,
      (forall key msg, length (hmac_sha256 key msg) = 32%nat) /\
      @authenticated_frames_always_verified C.
Proof.
  intros (C & Hlen & Hclaim).
  destruct (Hclaim engine_controller forged_frame still_world eq_refl) as [Hhealth _].
  - unfold verify_hmac. run_monad. apply bool_decide_eq_false.
    intros E. apply (f_equal length) in E. rewrite Hlen in E. done.
  - vm_compute in Hhealth. discriminate.
Qed.

(** ** The attacks *)

(** What an attempt leaves alone when it neither sends nor compromises, and
    how far it moves the counters of the spoofing attack. *)
Definition spoofing_counts (sent blocked_by detected_by : Z) (w w' : World) : Prop :=
  security w' = security w /\
  spoofing_running w' = spoofing_running w /\
  active_attacks (manager w') = active_attacks (manager w) /\
  successful (stats_spoofing (manager w')) =
    successful (stats_spoofing (manager w)) + sent /\
  blocked (stats_spoofing (manager w')) =
    blocked (stats_spoofing (manager w)) + blocked_by /\
  detected (stats_spoofing (manager w')) =
    detected (stats_spoofing (manager w)) + detected_by.

Lemma spoofing_attempt_authenticated target w :
  authentication (measures (security w)) = true ->
  let w' := (spoofing_attempt target w).2 in
  spoofing_counts 0 1 1 w w' /\
  attempts (stats_spoofing (manager w')) = attempts (stats_spoofing (manager w)) + 1 /\
  bus w' = bus w /\
  compromised_nodes (manager w') = compromised_nodes (manager w).
Proof.
  intros Hauth. destruct target as [arb_id payload].
  unfold spoofing_counts, spoofing_attempt. run_monad. rewrite Hauth. run_monad.
  rewrite andb_false_r. run_monad. repeat split; try done; lia.
Qed.

Lemma spoofing_pass_authenticated w :
  authentication (measures (security w)) = true ->
  let w' := (for_each spoofing_targets spoofing_attempt w).2 in
  spoofing_counts 0 3 3 w w' /\
  attempts (stats_spoofing (manager w')) = attempts (stats_spoofing (manager w)) + 3 /\
  bus w' = bus w /\
  compromised_nodes (manager w') = compromised_nodes (manager w).
Proof.
  intros Hauth. unfold spoofing_targets. cbn [for_each]. unfold bind.
  pose proof (spoofing_attempt_authenticated (0x0A0, [x00]) w Hauth) as H1.
  destruct (spoofing_attempt (0x0A0, [x00]) w) as [[] w1]. cbn [snd] in H1.
  destruct H1 as ((Hs1 & Hr1 & Ha1 & Hsu1 & Hb1 & Hd1) & Hat1 & Hbus1 & Hc1).
  pose proof (spoofing_attempt_authenticated (0x300, [x00]) w1 ltac:(by rewrite Hs1))
    as H2.
  destruct (spoofing_attempt (0x300, [x00]) w1) as [[] w2]. cbn [snd] in H2.
  destruct H2 as ((Hs2 & Hr2 & Ha2 & Hsu2 & Hb2 & Hd2) & Hat2 & Hbus2 & Hc2).
  pose proof (spoofing_attempt_authenticated (0x301, [x00]) w2
                ltac:(by rewrite Hs2, Hs1)) as H3.
  destruct (spoofing_attempt (0x301, [x00]) w2) as [[] w3]. cbn [snd] in H3.
  destruct H3 as ((Hs3 & Hr3 & Ha3 & Hsu3 & Hb3 & Hd3) & Hat3 & Hbus3 & Hc3).
  unfold ret, spoofing_counts. cbn [snd].
  repeat split; try congruence; lia.
Qed.

Lemma spoofing_loop_authenticated passes w :
  authentication (measures (security w)) = true ->
  let body := for_each spoofing_targets spoofing_attempt in
  let w' := (attack_loop spoofing_running "spoofing" body passes w).2 in
  exists n : Z,
    0 <= n <= Z.of_nat passes /\
    (spoofing_running w = true -> "spoofing" ∈ active_attacks (manager w) ->
     n = Z.of_nat passes) /\
    spoofing_counts 0 (3 * n) (3 * n) w w' /\
    attempts (stats_spoofing (manager w')) =
      attempts (stats_spoofing (manager w)) + 3 * n /\
    bus w' = bus w /\
    compromised_nodes (manager w') = compromised_nodes (manager w).
Proof.
  revert w. induction passes as [|passes IH]; intros w Hauth body w'.
  - exists 0. subst w'. unfold spoofing_counts. simpl. repeat split; try done; lia.
  - subst w'.
    assert (attack_loop spoofing_running "spoofing" body (S passes) w =
              if spoofing_running w
                 && bool_decide ("spoofing" ∈ active_attacks (manager w))
              then attack_loop spoofing_running "spoofing" body passes (body w).2
              else (tt, w)) as ->.
    { cbn [attack_loop]. unfold bind, get_world.
      destruct (spoofing_running w && _); [|done]. by destruct (body w). }
    destruct (spoofing_running w && bool_decide ("spoofing" ∈ active_attacks (manager w)))
      eqn:Hcond.
    + apply andb_true_iff in Hcond as [Hrun Hact]. apply bool_decide_eq_true in Hact.
      pose proof (spoofing_pass_authenticated w Hauth) as Hpass.
      fold body in Hpass. cbv zeta in Hpass.
      set (w1 := (body w).2) in *.
      destruct Hpass as ((Hs1 & Hr1 & Ha1 & Hsu1 & Hb1 & Hd1) & Hat1 & Hbus1 & Hc1).
      destruct (IH w1 ltac:(by rewrite Hs1)) as
        (n & Hn & Hfull & (Hs2 & Hr2 & Ha2 & Hsu2 & Hb2 & Hd2) & Hat2 & Hbus2 & Hc2).
      fold body in Hs2, Hr2, Ha2, Hsu2, Hb2, Hd2, Hat2, Hbus2, Hc2.
      exists (1 + n). unfold spoofing_counts.
      split; [lia|]. split.
      { intros _ _. rewrite Hfull; [lia|congruence|by rewrite Ha1]. }
      repeat split; try congruence; lia.
    + exists 0. unfold spoofing_counts. cbn [snd]. split; [lia|]. split.
      { intros Hrun Hact. rewrite Hrun in Hcond.
        apply (bool_decide_eq_true_2 _) in Hact. by rewrite Hact in Hcond. }
      repeat split; try done; lia.
Qed.

(** C3. With the authentication measure enabled, a run of the spoofing
    attack sends nothing: every attempt is counted as blocked and as
    detected, the counter of successes is never incremented (so it is 0 when
    it started at 0), the queue of the bus and the compromised nodes are as
    before; a run of [passes] passes of an active attack makes three
    attempts per pass. *)
Theorem spoofing_blocked_by_authentication (passes : nat) (w : World) :
  authentication (measures (security w)) = true ->
  let w' := (spoofing_execute passes w).2 in
  let st := stats_spoofing (manager w) in
  let st' := stats_spoofing (manager w') in
  successful st' = successful st /\
  (successful st = 0 -> successful st' = 0) /\
  blocked st' - blocked st = attempts st' - attempts st /\
  detected st' - detected st = attempts st' - attempts st /\
  bus w' = bus w /\
  compromised_nodes (manager w') = compromised_nodes (manager w) /\
  ("spoofing" ∈ active_attacks (manager w) ->
   attempts st' = attempts st + 3 * Z.of_nat passes).
Proof.
  intros Hauth w' st st'. subst w' st st'.
  set (w0 := set_spoofing_running true w).
  assert (spoofing_execute passes w =
            attack_loop spoofing_running "spoofing"
              (for_each spoofing_targets spoofing_attempt) passes w0) as ->
    by reflexivity.
  destruct (spoofing_loop_authenticated passes w0 Hauth)
    as (n & Hn & Hfull & (Hs & Hr & Ha & Hsu & Hb & Hd) & Hat & Hbus & Hc).
  cbv zeta in *. change (manager w0) with (manager w) in *.
  change (bus w0) with (bus w) in *.
  repeat split; try congruence; try lia.
  intros Hact. rewrite Hat, Hfull; [lia|done|done].
Qed.

(** Authentication enabled and the spoofing attack started. *)
Definition spoofed_world : World :=
  (start_attack "spoofing" authenticating_world).2.

Lemma spoofing_blocked_by_authentication_witness :
  let st := stats_spoofing (manager (spoofing_execute 2 spoofed_world).2) in
  successful st = 0 /\ attempts st = 6.
Proof.
  pose proof (spoofing_blocked_by_authentication 2 spoofed_world eq_refl) as H.
  cbv zeta in H. split.
  - exact (proj1 (proj2 H) eq_refl).
  - refine (proj2 (proj2 (proj2 (proj2 (proj2 (proj2 H))))) _).
    vm_compute. reflexivity.
Defined.

(** C6 as the spec states it: the blocked counter is incremented. *)
Definition encrypted_spoof_counted_blocked : Prop :=
  forall target w,
    authentication (measures (security w)) = false ->
    encryption (measures (security w)) = true ->
    blocked (stats_spoofing (manager (spoofing_attempt target w).2)) =
      blocked (stats_spoofing (manager w)) + 1.

(** C6, amended. With authentication disabled and encryption enabled, a
    spoofing attempt is counted as an attempt and as detected; the frame is
    not sent and the counter of successes is not incremented; the blocked
    counter is not incremented either. *)
Theorem spoofing_detected_by_encryption (target : Z * list byte) (w : World) :
  authentication (measures (security w)) = false ->
  encryption (measures (security w)) = true ->
  let w' := (spoofing_attempt target w).2 in
  let st := stats_spoofing (manager w) in
  let st' := stats_spoofing (manager w') in
  attempts st' = attempts st + 1 /\
  detected st' = detected st + 1 /\
  blocked st' = blocked st /\
  successful st' = successful st /\
  bus w' = bus w /\
  compromised_nodes (manager w') = compromised_nodes (manager w).
Proof.
  intros Hauth Henc. destruct target as [arb_id payload].
  unfold spoofing_attempt. run_monad. rewrite Hauth. run_monad.
  rewrite Henc. run_monad. repeat split; done.
Qed.

(** Encryption enabled, authentication not. *)
Definition encrypting_world : World :=
  (toggle_measure "encryption" true still_world).2.

Lemma spoofing_detected_by_encryption_witness :
  let st := stats_spoofing (manager (spoofing_attempt (0x0A0, [x00]) encrypting_world).2) in
  detected st = 1 /\ blocked st = 0.
Proof.
  pose proof (spoofing_detected_by_encryption (0x0A0, [x00]) encrypting_world
                eq_refl eq_refl) as H.
  exact (conj (proj1 (proj2 H)) (proj1 (proj2 (proj2 H)))).
Defined.

Lemma encrypted_spoof_not_counted_blocked : ~ encrypted_spoof_counted_blocked.
Proof.
  intros Hclaim.
  specialize (Hclaim (0x0A0, [x00]) encrypting_world eq_refl eq_refl).
  vm_compute in Hclaim. discriminate.
Qed.

(** C4, at the failing run: one pass of the replay attack with intrusion
    detection, authentication and rate limiting enabled makes six attempts
    and counts seven detections, and the detection rate is above 100. *)
Theorem replay_detection_rate_above_100 :
  let st := stats_replay (manager replayed_world) in
  attempts st = 6 /\ detected st = 7 /\ successful st = 6 /\
  (100 < detection_rate st)%Q.
Proof. vm_compute. done. Qed.

(** The rates are 0 before the first attempt, and within 0 and 100 whenever
    the counter they divide does not exceed the attempts. *)
Lemma rates_bounded st :
  (attempts st = 0 -> success_rate st = 0%Q /\ detection_rate st = 0%Q) /\
  (0 <= successful st <= attempts st -> (0 <= success_rate st <= 100)%Q) /\
  (0 <= detected st <= attempts st -> (0 <= detection_rate st <= 100)%Q).
Proof.
  assert (forall a b : Z, 0 <= a <= b -> b <> 0 ->
            (0 <= inject_Z a / inject_Z b * 100 <= 100)%Q) as Hrate.
  { intros a b Hab Hb.
    assert (0 < inject_Z b)%Q as Hpos by (rewrite <-(Zlt_Qlt 0); lia).
    assert (0 <= inject_Z a)%Q as Ha by (rewrite <-(Zle_Qle 0); lia).
    assert (inject_Z a <= inject_Z b)%Q as Hle by (rewrite <-Zle_Qle; lia).
    assert (0 <= inject_Z a / inject_Z b <= 1)%Q as [H0 H1].
    { split.
      - apply Qle_shift_div_l; [done|]. by rewrite Qmult_0_l.
      - apply Qle_shift_div_r; [done|]. by rewrite Qmult_1_l. }
    split; lra. }
  unfold success_rate, detection_rate. split; [|split].
  - intros Hz. by rewrite !decide_True.
  - intros Hb. case_decide; [done|by apply Hrate].
  - intros Hb. case_decide; [done|by apply Hrate].
Qed.
